(** * scli: a shallow embedding of the command-tree parser and its validators

    The development follows the Go sources file by file:
    - the errors file: the sentinel errors and [NoExecError];
    - [args.go]: the argument validators;
    - [scli.go]: [Command], [Name], [selectedBy], [Parse], [Run],
      [ParseAndRun];
    together with the parts of Go's standard library that [Parse] drives:
    package [flag] ([NewFlagSet], [FlagSet.Parse], [parseOne], [failf],
    [usage], [Args]), [strings.EqualFold] and [errors.Is].

    Commands are heap objects addressed by pointers, as in the source: the
    [selected] back-reference, the [Subcommands] slice and the [FlagSet]
    field are pointers, flag sets may be shared between commands, and
    [Parse] mutates the nodes in place.

    What is kept abstract:
    - the text of a usage message ([defaultUsageFunc] and the flag
      package's [PrintDefaults]): the output records who rendered which
      node, not the characters;
    - a flag's value: a flag either accepts a text or rejects it with a
      message, and the flag set records the text it was given;
    - the caller's functions (validators, [Exec]): they are functions of
      their arguments that return, fail, exit or panic, and do not touch
      the command tree;
    - the Unicode tables behind [strings.EqualFold] and [strconv.Quote]. *)

From Stdlib Require Import ZArith String Ascii.
From stdpp Require Import gmap strings list pretty.

Open Scope string_scope.
Open Scope list_scope.

(** ** Pointers, errors, results *)

(** A non-nil pointer is an address; a pointer-typed field is an
    [option loc], [None] being Go's [nil]. *)
Abbreviation loc := nat (only parsing).

(** Go's [error] values, as far as this package produces or inspects them.
    - [ErrHelp] is [flag.ErrHelp]; [ErrUnparsed] and [ErrInvalidArguments]
      are the two package-level sentinels (each a distinct allocation);
    - [NoExecError c] is the struct [NoExecError{Command: c}];
    - [errorString s] is a value made by [errors.New(s)] or by
      [fmt.Errorf] without [%w];
    - [wrapError msg err] is what [fmt.Errorf] returns for a format with one
      [%w]: the formatted message and the wrapped error. *)
Inductive error : Type :=
| ErrHelp
| ErrUnparsed
| ErrInvalidArguments
| NoExecError (Command : loc)
| errorString (s : string)
| wrapError (msg : string) (err : error).

#[global] Instance error_eq_dec : EqDecision error.
Proof. solve_decision. Defined.

(** [errors.Is(err, target)]: compare, then follow [Unwrap]. *)
Fixpoint errors_Is (err target : error) : bool :=
  if bool_decide (err = target) then true
  else match err with
       | wrapError _ inner => errors_Is inner target
       | _ => false
       end.

(** What a Go panic carries in this program: the runtime error of a nil
    dereference or nil function call, or the error handed to [panic] by a
    [flag.PanicOnError] flag set. *)
Inductive panicValue : Type :=
| nilDereference
| panicError (e : error).

(** Outcome of running a piece of Go code that returns [(A, error)] (or just
    [error], with [A := unit]): a normal return with a nil error, a return
    with a non-nil error, [os.Exit], a panic, or no return at all: a caller's
    function that does not terminate, or one of the recursions that are run
    with fuel running out of it. *)
Inductive res (A : Type) : Type :=
| Val (a : A)
| Err (e : error)
| Exit (code : Z)
| Panic (p : panicValue)
| Timeout.
Arguments Val {A} a.
Arguments Err {A} e.
Arguments Exit {A} code.
Arguments Panic {A} p.
Arguments Timeout {A}.

(** ** args.go *)

(** A validator is a Go function value: [None] is the nil function, and a
    function may return nil, return an error, or (being Go code) not return
    normally.  Validators do not touch the command tree. *)
Definition ArgsValidator : Type := option (list string → res unit).

(** Calling a function value; calling nil panics. *)
Definition call (v : ArgsValidator) (args : list string) : res unit :=
  match v with
  | None => Panic nilDereference
  | Some f => f args
  end.

(** [len(args)] as a Go [int]. *)
Definition len {A} (l : list A) : Z := Z.of_nat (length l).

(** The [%d] verb. *)
Definition fmt_d (n : Z) : string := pretty n.

Definition NoArgs (args : list string) : res unit :=
  if (0 <? len args)%Z
  then Err (errorString
         ("was expecting to receive no arguemetns received " +:+ fmt_d (len args)))
  else Val tt.

Definition MinArgs (n : Z) : ArgsValidator :=
  Some (λ args,
    if (len args <? n)%Z
    then Err (errorString
           ("requires at least " +:+ fmt_d n +:+ " arg(s), only received "
            +:+ fmt_d (len args)))
    else Val tt).

Definition MaxArgs (n : Z) : ArgsValidator :=
  Some (λ args,
    if (n <? len args)%Z
    then Err (errorString
           ("requires at most " +:+ fmt_d n +:+ " arg(s), received "
            +:+ fmt_d (len args)))
    else Val tt).

Definition ExactArgs (n : Z) : ArgsValidator :=
  Some (λ args,
    if negb (len args =? n)%Z
    then Err (errorString
           ("requires exactly " +:+ fmt_d n +:+ " arg(s), received "
            +:+ fmt_d (len args)))
    else Val tt).

Definition RangeArgs (min max : Z) : ArgsValidator :=
  Some (λ args,
    let l := len args in
    if (l <? min)%Z || (max <? l)%Z
    then Err (errorString
           ("requires between " +:+ fmt_d min +:+ " and " +:+ fmt_d max
            +:+ " arg(s), received " +:+ fmt_d l))
    else Val tt).

(** The loop of the closure returned by [OnlyValidArgs]: the first argument
    missing from [validSet] is reported. *)
Fixpoint onlyValidLoop (validArgs : list string) (validSet : gset string)
    (args : list string) : res unit :=
  match args with
  | [] => Val tt
  | arg :: rest =>
      if bool_decide (arg ∈ validSet)
      then onlyValidLoop validArgs validSet rest
      else Err (errorString
             ("requires valid arugmenets of " +:+ String.concat ", " validArgs
              +:+ ", received " +:+ arg))
  end.

(** [validSet[arg] = struct{}{}] for each element, in order. *)
Definition makeValidSet (validArgs : list string) : gset string :=
  foldl (λ validSet arg, {[arg]} ∪ validSet) ∅ validArgs.

Definition OnlyValidArgs (validArgs : list string) : ArgsValidator :=
  if (len validArgs =? 0)%Z then None
  else
    let validSet := makeValidSet validArgs in
    Some (onlyValidLoop validArgs validSet).

(** The loop of the closure returned by [CombineValidator]: each [v(args)]
    is a call of a function value. *)
Fixpoint combineLoop (validators : list ArgsValidator) (args : list string)
    : res unit :=
  match validators with
  | [] => Val tt
  | v :: rest =>
      match call v args with
      | Val _ => combineLoop rest args
      | r => r
      end
  end.

Definition CombineValidator (validators : list ArgsValidator) : ArgsValidator :=
  Some (combineLoop validators).

(** ** Strings *)

(** The parts of Go's standard library that the package relies on and that
    are tables rather than algorithms: the Unicode branch of
    [strings.EqualFold] (taken as soon as either string holds a byte of at
    least [utf8.RuneSelf]) and [strconv.Quote], the [%q] verb. *)
Class GoStdlib : Type := {
  unicodeEqualFold : string → string → bool;
  strconv_Quote : string → string;
}.

(** [s[n:]] and [s[:n]] on byte strings. *)
Definition sliceFrom (n : nat) (s : string) : string :=
  substring n (String.length s - n) s.
Definition sliceTo (n : nat) (s : string) : string := substring 0 n s.

Definition byte (a : ascii) : N := N_of_ascii a.
Definition RuneSelf : N := 128.

Section Strings.
Context `{GoStdlib}.

(** [strings.EqualFold]: the ASCII fast path, byte by byte; the first
    byte pair with a non-ASCII member hands the two remaining suffixes to
    the Unicode branch. *)
Fixpoint EqualFold (s t : string) : bool :=
  match s, t with
  | String sr s', String tr t' =>
      if (RuneSelf <=? N.lor (byte sr) (byte tr))%N
      then unicodeEqualFold s t
      else if (byte tr =? byte sr)%N then EqualFold s' t'
      else
        let lo := N.min (byte sr) (byte tr) in
        let hi := N.max (byte sr) (byte tr) in
        if (byte "A" <=? lo)%N && (lo <=? byte "Z")%N
           && (hi =? lo + byte "a" - byte "A")%N
        then EqualFold s' t'
        else false
  | _, _ => (String.length s =? String.length t)%nat
  end.
End Strings.

(** ** The flag package: data *)

(** Go's standard package [flag], as far as [Command.Parse] uses it. *)
Module flag.
(** The three [ErrorHandling] constants. *)
Inductive ErrorHandling : Type :=
| ContinueOnError
| ExitOnError
| PanicOnError.

(** A defined flag, seen through its [flag.Value]: whether the value is a
    boolean flag, and whether [Set] accepts a text ([None]) or rejects it
    with an error of the given message. *)
Record Flag : Type := {
  IsBoolFlag : bool;
  Set_ : string → option string;
}.

(** The [Usage] field of a flag set: the method value [f.defaultUsage]
    installed by [NewFlagSet], or the closure that [Command.Parse] installs
    for the command [c]. *)
Inductive UsageHook : Type :=
| defaultUsage
| commandUsage (c : loc).

Record FlagSet : Type := {
  Usage : option UsageHook;
  name : string;
  parsed : bool;
  actual : gmap string string;   (* flags set so far, with the text given *)
  formal : gmap string Flag;
  args : list string;
  errorHandling : ErrorHandling;
}.

Definition with_Usage (u : option UsageHook) (f : FlagSet) : FlagSet :=
  {| Usage := u; name := name f; parsed := parsed f; actual := actual f;
     formal := formal f; args := args f; errorHandling := errorHandling f |}.
Definition with_args (a : list string) (f : FlagSet) : FlagSet :=
  {| Usage := Usage f; name := name f; parsed := parsed f; actual := actual f;
     formal := formal f; args := a; errorHandling := errorHandling f |}.
Definition with_parsed (b : bool) (f : FlagSet) : FlagSet :=
  {| Usage := Usage f; name := name f; parsed := b; actual := actual f;
     formal := formal f; args := args f; errorHandling := errorHandling f |}.
Definition with_actual (a : gmap string string) (f : FlagSet) : FlagSet :=
  {| Usage := Usage f; name := name f; parsed := parsed f; actual := a;
     formal := formal f; args := args f; errorHandling := errorHandling f |}.
End flag.

(** ** scli.go: the Command node *)

Module context.
Inductive Context : Type :=
| Background
| WithValue (parent : Context) (key val : string).
End context.

(** A usage function, [func(c *Command) string]: the package's
    [defaultUsageFunc] or one supplied by the caller.  The rendered text is
    not modelled; the output records which function rendered which node. *)
Inductive usageFunc : Type :=
| defaultUsageFunc
| customUsageFunc (id : nat).

Module Command.
Record t : Type := {
  Usage : string;
  Aliases : list string;
  ShortHelp : string;
  LongHelp : string;
  Subcommands : list (option loc);
  UsageFunc : option usageFunc;
  FlagSet : option loc;
  ArgsValidator : ArgsValidator;
  Exec : option (context.Context → list string → res unit);
  selected : option loc;
  args : list string;
}.

Definition with_UsageFunc (u : option usageFunc) (c : t) : t :=
  {| Usage := Usage c; Aliases := Aliases c; ShortHelp := ShortHelp c;
     LongHelp := LongHelp c; Subcommands := Subcommands c; UsageFunc := u;
     FlagSet := FlagSet c; ArgsValidator := ArgsValidator c; Exec := Exec c;
     selected := selected c; args := args c |}.
Definition with_FlagSet (fs : option loc) (c : t) : t :=
  {| Usage := Usage c; Aliases := Aliases c; ShortHelp := ShortHelp c;
     LongHelp := LongHelp c; Subcommands := Subcommands c;
     UsageFunc := UsageFunc c; FlagSet := fs;
     ArgsValidator := ArgsValidator c; Exec := Exec c;
     selected := selected c; args := args c |}.
Definition with_selected (s : option loc) (c : t) : t :=
  {| Usage := Usage c; Aliases := Aliases c; ShortHelp := ShortHelp c;
     LongHelp := LongHelp c; Subcommands := Subcommands c;
     UsageFunc := UsageFunc c; FlagSet := FlagSet c;
     ArgsValidator := ArgsValidator c; Exec := Exec c;
     selected := s; args := args c |}.
Definition with_args (a : list string) (c : t) : t :=
  {| Usage := Usage c; Aliases := Aliases c; ShortHelp := ShortHelp c;
     LongHelp := LongHelp c; Subcommands := Subcommands c;
     UsageFunc := UsageFunc c; FlagSet := FlagSet c;
     ArgsValidator := ArgsValidator c; Exec := Exec c;
     selected := selected c; args := a |}.
End Command.

(** ** Program state *)

(** What the program writes to a flag set's output sink. *)
Inductive event : Type :=
| Println (fs : loc) (msg : string)
    (* fmt.Fprintln(f.Output(), err) in FlagSet.failf *)
| PrintDefaults (fs : loc)
    (* f.defaultUsage() *)
| PrintUsage (fs : loc) (c : loc) (u : usageFunc).
    (* fmt.Fprintln(c.FlagSet.Output(), c.UsageFunc(c)) *)

(** The heap of command nodes, the heap of flag sets, and the output so
    far (oldest first). *)
Record state : Type := mkState {
  cmds : gmap nat Command.t;
  fsets : gmap nat flag.FlagSet;
  out : list event;
}.

(** State and failure: a computation takes the state and yields an outcome
    and the state it leaves. *)
Definition M (A : Type) : Type := state → res A * state.

Definition ret {A} (a : A) : M A := λ σ, (Val a, σ).
Definition bind {A B} (m : M A) (k : A → M B) : M B :=
  λ σ, match m σ with
       | (Val a, σ') => k a σ'
       | (Err e, σ') => (Err e, σ')
       | (Exit n, σ') => (Exit n, σ')
       | (Panic p, σ') => (Panic p, σ')
       | (Timeout, σ') => (Timeout, σ')
       end.
Definition fail {A} (e : error) : M A := λ σ, (Err e, σ).
Definition exit {A} (code : Z) : M A := λ σ, (Exit code, σ).
Definition panic {A} (p : panicValue) : M A := λ σ, (Panic p, σ).
Definition timeout {A} : M A := λ σ, (Timeout, σ).
Definition lift {A} (r : res A) : M A := λ σ, (r, σ).

Notation "'let*' x ':=' m 'in' k" := (bind m (λ x, k))
  (at level 61, x pattern, m at next level, k at level 200, right associativity).

(** Dereferencing a pointer; nil (and an address that holds nothing) is the
    runtime's nil-dereference panic. *)
Definition getCommand (c : loc) : M Command.t :=
  λ σ, match cmds σ !! c with
       | Some cmd => (Val cmd, σ)
       | None => (Panic nilDereference, σ)
       end.
Definition putCommand (c : loc) (cmd : Command.t) : M unit :=
  λ σ, (Val tt, mkState (<[c := cmd]> (cmds σ)) (fsets σ) (out σ)).
Definition getFlagSet (fs : loc) : M flag.FlagSet :=
  λ σ, match fsets σ !! fs with
       | Some f => (Val f, σ)
       | None => (Panic nilDereference, σ)
       end.
Definition putFlagSet (fs : loc) (f : flag.FlagSet) : M unit :=
  λ σ, (Val tt, mkState (cmds σ) (<[fs := f]> (fsets σ)) (out σ)).
Definition emit (e : event) : M unit :=
  λ σ, (Val tt, mkState (cmds σ) (fsets σ) (out σ ++ [e])).

(** ** The flag package: operations

    [FlagSet.Parse] and what it calls, after the standard library's
    [flag.go]. *)

(** The closure [Command.Parse] stores in [c.FlagSet.Usage]:
    [func() { fmt.Fprintln(c.FlagSet.Output(), c.UsageFunc(c)) }].
    It reads [c]'s fields when it runs. *)
Definition commandUsageClosure (c : loc) : M unit :=
  let* cmd := getCommand c in
  match Command.FlagSet cmd with
  | None => panic nilDereference
  | Some fs =>
      let* _ := getFlagSet fs in
      match Command.UsageFunc cmd with
      | None => panic nilDereference
      | Some u => emit (PrintUsage fs c u)
      end
  end.

Definition runUsageHook (fs : loc) (h : flag.UsageHook) : M unit :=
  match h with
  | flag.defaultUsage => emit (PrintDefaults fs)
  | flag.commandUsage c => commandUsageClosure c
  end.

(** [f.usage()]: the hook if there is one, [f.defaultUsage()] otherwise. *)
Definition FlagSet_usage (fs : loc) : M unit :=
  let* f := getFlagSet fs in
  match flag.Usage f with
  | None => emit (PrintDefaults fs)
  | Some h => runUsageHook fs h
  end.

(** [c.FlagSet.Usage()]: a direct call of the field of [c]'s flag set. *)
Definition callFlagSetUsage (c : loc) : M unit :=
  let* cmd := getCommand c in
  match Command.FlagSet cmd with
  | None => panic nilDereference
  | Some fs =>
      let* f := getFlagSet fs in
      match flag.Usage f with
      | None => panic nilDereference
      | Some h => runUsageHook fs h
      end
  end.

(** [f.failf(format, a...)]: print the message, print the usage, and hand
    back the error. *)
Definition FlagSet_failf {A} (fs : loc) (msg : string) : M A :=
  let* _ := emit (Println fs msg) in
  let* _ := FlagSet_usage fs in
  fail (errorString msg).

(** [flag.NewFlagSet(name, errorHandling)] allocates a flag set. *)
Definition NewFlagSet (name : string) (eh : flag.ErrorHandling) : M loc :=
  λ σ,
    let fs := fresh (dom (fsets σ)) in
    let f := {| flag.Usage := Some flag.defaultUsage; flag.name := name;
                flag.parsed := false; flag.actual := ∅; flag.formal := ∅;
                flag.args := []; flag.errorHandling := eh |} in
    (Val fs, mkState (cmds σ) (<[fs := f]> (fsets σ)) (out σ)).

Definition FlagSet_Args (fs : loc) : M (list string) :=
  let* f := getFlagSet fs in
  ret (flag.args f).

Section Flag.
Context `{GoStdlib}.

(** [f.parseOne()]: [Val seen] for [(seen, nil)], [Err err] for
    [(false, err)]. *)
Definition FlagSet_parseOne (fs : loc) : M bool :=
  let* f := getFlagSet fs in
  match flag.args f with
  | [] => ret false
  | s :: rest =>
      if (String.length s <? 2)%nat
         || negb (bool_decide (String.get 0 s = Some "-"%char))
      then ret false
      else
        let dashdash := bool_decide (String.get 1 s = Some "-"%char) in
        let numMinuses := if dashdash then 2 else 1 in
        if dashdash && (String.length s =? 2)%nat
        then (* the terminator *)
          let* _ := putFlagSet fs (flag.with_args rest f) in
          ret false
        else
          let name := sliceFrom numMinuses s in
          if (String.length name =? 0)%nat
             || bool_decide (String.get 0 name = Some "-"%char)
             || bool_decide (String.get 0 name = Some "="%char)
          then FlagSet_failf fs ("bad flag syntax: " +:+ s)
          else
            (* it's a flag. does it have an argument? *)
            let f := flag.with_args rest f in
            let* _ := putFlagSet fs f in
            let '(name, hasValue, value) :=
              match index 1 "=" name with
              | Some i => (sliceTo i name, true, sliceFrom (i + 1) name)
              | None => (name, false, "")
              end in
            match flag.formal f !! name with
            | None =>
                if bool_decide (name = "help") || bool_decide (name = "h")
                then
                  let* _ := FlagSet_usage fs in
                  fail ErrHelp
                else
                  FlagSet_failf fs ("flag provided but not defined: -" +:+ name)
            | Some fl =>
                if flag.IsBoolFlag fl then
                  if hasValue then
                    match flag.Set_ fl value with
                    | Some err =>
                        FlagSet_failf fs
                          ("invalid boolean value " +:+ strconv_Quote value
                           +:+ " for -" +:+ name +:+ ": " +:+ err)
                    | None =>
                        let* _ := putFlagSet fs
                          (flag.with_actual (<[name := value]> (flag.actual f)) f) in
                        ret true
                    end
                  else
                    match flag.Set_ fl "true" with
                    | Some err =>
                        FlagSet_failf fs
                          ("invalid boolean flag " +:+ name +:+ ": " +:+ err)
                    | None =>
                        let* _ := putFlagSet fs
                          (flag.with_actual (<[name := "true"]> (flag.actual f)) f) in
                        ret true
                    end
                else
                  (* It must have a value, which might be the next argument. *)
                  let '(hasValue, value, f) :=
                    match hasValue, flag.args f with
                    | false, next :: rest' => (true, next, flag.with_args rest' f)
                    | _, _ => (hasValue, value, f)
                    end in
                  let* _ := putFlagSet fs f in
                  if negb hasValue
                  then FlagSet_failf fs ("flag needs an argument: -" +:+ name)
                  else
                    match flag.Set_ fl value with
                    | Some err =>
                        FlagSet_failf fs
                          ("invalid value " +:+ strconv_Quote value
                           +:+ " for flag -" +:+ name +:+ ": " +:+ err)
                    | None =>
                        let* _ := putFlagSet fs
                          (flag.with_actual (<[name := value]> (flag.actual f)) f) in
                        ret true
                    end
            end
  end.

(** The [for] loop of [FlagSet.Parse]; every turn that goes round again has
    consumed an argument. *)
Fixpoint FlagSet_parseLoop (fuel : nat) (fs : loc) : M unit :=
  match fuel with
  | O => timeout
  | S fuel' =>
      λ σ,
        match FlagSet_parseOne fs σ with
        | (Val true, σ') => FlagSet_parseLoop fuel' fs σ'
        | (Val false, σ') => (Val tt, σ')
        | (Err err, σ') =>
            match fsets σ' !! fs with
            | None => (Panic nilDereference, σ')
            | Some f =>
                match flag.errorHandling f with
                | flag.ContinueOnError => (Err err, σ')
                | flag.ExitOnError =>
                    if bool_decide (err = ErrHelp)
                    then (Exit 0, σ') else (Exit 2, σ')
                | flag.PanicOnError => (Panic (panicError err), σ')
                end
            end
        | (Exit n, σ') => (Exit n, σ')
        | (Panic p, σ') => (Panic p, σ')
        | (Timeout, σ') => (Timeout, σ')
        end
  end.

(** [f.Parse(arguments)]. *)
Definition FlagSet_Parse (fs : loc) (arguments : list string) : M unit :=
  let* f := getFlagSet fs in
  let* _ := putFlagSet fs (flag.with_args arguments (flag.with_parsed true f)) in
  FlagSet_parseLoop (S (length arguments)) fs.

End Flag.

(** ** errors: the [Error] methods *)

(** Name of the command is derived from first word of Usage. *)
Definition Name (c : Command.t) : string :=
  let name := Command.Usage c in
  match index 0 " " name with
  | Some i => sliceTo i name
  | None => name
  end.

(** [err.Error()].  [NoExecError.Error] reads the command it points to, so
    the message depends on the command heap. *)
Definition errorMessage (h : gmap nat Command.t) (err : error) : option string :=
  match err with
  | ErrHelp => Some "flag: help requested"
  | ErrUnparsed => Some "command tree is unparsed, can't run"
  | ErrInvalidArguments => Some "invalid arguments"
  | NoExecError c =>
      cmd ← h !! c;
      Some ("terminal command (" +:+ Name cmd +:+ ") does not define a Exec function")
  | errorString s => Some s
  | wrapError msg _ => Some msg
  end.

Definition error_Error (err : error) : M string :=
  λ σ, match errorMessage (cmds σ) err with
       | Some msg => (Val msg, σ)
       | None => (Panic nilDereference, σ)
       end.

(** ** scli.go: Parse *)

Definition setSelected (c : loc) (target : loc) : M unit :=
  let* cmd := getCommand c in
  putCommand c (Command.with_selected (Some target) cmd).

Section Scli.
Context `{GoStdlib}.

(** The loop of [selectedBy] over the name followed by the aliases. *)
Fixpoint anyEqualFold (name : string) (aliases : list string) : bool :=
  match aliases with
  | [] => false
  | s :: rest => if EqualFold name s then true else anyEqualFold name rest
  end.

Definition selectedBy (c : Command.t) (name : string) : bool :=
  let aliases := Name c :: Command.Aliases c in
  anyEqualFold name aliases.

(** The loop over [c.Subcommands] in [Parse]: the first child that is
    selected by [name], if any.  A nil child panics when it is asked. *)
Fixpoint findSubcommand (subcommands : list (option loc)) (name : string)
    : M (option loc) :=
  match subcommands with
  | [] => ret None
  | None :: _ => panic nilDereference
  | Some cmd :: rest =>
      let* child := getCommand cmd in
      if selectedBy child name then ret (Some cmd)
      else findSubcommand rest name
  end.

(** Lines 76 to 86 of [Parse]: make sure [c] has a flag set and a usage
    function, and point the flag set's usage hook at [c]. *)
Definition prepareFlagSet (c : loc) : M loc :=
  let* cmd := getCommand c in
  let* fs :=
    match Command.FlagSet cmd with
    | None =>
        let* fs := NewFlagSet (Name cmd) flag.ExitOnError in
        let* _ := putCommand c (Command.with_FlagSet (Some fs) cmd) in
        ret fs
    | Some fs => ret fs
    end in
  let* cmd := getCommand c in
  let* _ :=
    match Command.UsageFunc cmd with
    | None => putCommand c (Command.with_UsageFunc (Some defaultUsageFunc) cmd)
    | Some _ => ret tt
    end in
  let* f := getFlagSet fs in
  let* _ := putFlagSet fs (flag.with_Usage (Some (flag.commandUsage c)) f) in
  ret fs.

(** Lines 76 to 92: bind the flags and store the positional remainder in
    [c.args].  A failure of [FlagSet.Parse] is returned as it is. *)
Definition bindFlags (c : loc) (argv : list string) : M (list string) :=
  let* fs := prepareFlagSet c in
  let* _ := FlagSet_Parse fs argv in
  let* rest := FlagSet_Args fs in
  let* cmd := getCommand c in
  let* _ := putCommand c (Command.with_args rest cmd) in
  ret rest.

(** Lines 93 to 100: which child, if any, the first positional argument
    selects. *)
Definition selectChild (c : loc) (rest : list string) : M (option loc) :=
  match rest with
  | [] => ret None
  | first :: _ =>
      let* cmd := getCommand c in
      findSubcommand (Command.Subcommands cmd) first
  end.

(** Lines 102 to 115: [c] is the terminal node. *)
Definition resolveSelf (c : loc) : M unit :=
  let* _ := setSelected c c in
  let* cmd := getCommand c in
  match Command.Exec cmd with
  | None => fail (NoExecError c)
  | Some _ =>
      match Command.ArgsValidator cmd with
      | None => ret tt
      | Some validate =>
          match validate (Command.args cmd) with
          | Err err =>
              let* _ := callFlagSetUsage c in
              let* msg := error_Error err in
              fail (wrapError ("invalid arguments: " +:+ msg) ErrInvalidArguments)
          | r => lift r
          end
      end
  end.

(** [c.Parse(args)].  The recursion is on a child with a strictly shorter
    argument vector; [fuel] bounds its depth. *)
Fixpoint Parse_fuel (fuel : nat) (c : loc) (argv : list string) : M unit :=
  match fuel with
  | O => timeout
  | S fuel' =>
      let* cmd := getCommand c in
      match Command.selected cmd with
      | Some _ => ret tt
      | None =>
          let* rest := bindFlags c argv in
          let* child := selectChild c rest in
          match child with
          | Some sub =>
              let* _ := setSelected c sub in
              Parse_fuel fuel' sub (tail rest)
          | None => resolveSelf c
          end
      end
  end.

Definition Parse (c : loc) (argv : list string) : M unit :=
  Parse_fuel (S (length argv)) c argv.

(** ** scli.go: Run *)

(** Lines 124 to 136: [c] is its own selection. *)
Definition runSelf (c : loc) (cmd : Command.t) (ctx : context.Context) : M unit :=
  match Command.Exec cmd with
  | None => fail (NoExecError c)
  | Some exec =>
      match exec ctx (Command.args cmd) with
      | Err err =>
          (* the deferred function *)
          if errors_Is err ErrHelp || errors_Is err ErrInvalidArguments
          then let* _ := callFlagSetUsage c in fail err
          else fail err
      | r => lift r
      end
  end.

(** [c.Run(ctx)].  The recursion follows [selected]; [fuel] bounds it. *)
Fixpoint Run_fuel (fuel : nat) (c : loc) (ctx : context.Context) : M unit :=
  match fuel with
  | O => timeout
  | S fuel' =>
      let* cmd := getCommand c in
      match Command.selected cmd with
      | None => fail ErrUnparsed
      | Some s =>
          if bool_decide (s = c) then runSelf c cmd ctx
          else Run_fuel fuel' s ctx
      end
  end.

(** [c.ParseAndRun(ctx, args)]. *)
Definition ParseAndRun_fuel (fuel : nat) (c : loc) (ctx : context.Context)
    (argv : list string) : M unit :=
  let* _ := Parse c argv in
  Run_fuel fuel c ctx.

End Scli.


(** * Specification vocabulary

    The predicates in which the properties of the program are stated and
    proved. *)

(** ** Outcomes of computations *)

(** [wp m Q σ]: running [m] from [σ] ends in an outcome and a state that
    satisfy [Q]. *)
Definition wp {A} (m : M A) (Q : res A → state → Prop) (σ : state) : Prop :=
  Q (m σ).1 (m σ).2.

(** What [bind] passes on when the first computation does not return a
    value (the [Val] case does not arise). *)
Definition coerce {A B} (r : res A) : res B :=
  match r with
  | Val _ => Timeout
  | Err e => Err e
  | Exit n => Exit n
  | Panic p => Panic p
  | Timeout => Timeout
  end.

(** A computation that leaves the command heap alone and does not run out
    of fuel. *)
Definition quiet {A} (σ : state) (r : res A) (σ' : state) : Prop :=
  cmds σ' = cmds σ ∧ r ≠ Timeout.

(** ** What the flag set and the flag binding establish *)

(** One turn of the flag loop consumes an argument when it reports a flag
    seen, never adds one, prints nothing unless it fails, and keeps the
    usage hook of its flag set. *)
Definition parseOne_post (fs : loc) (σ : state) (r : res bool) (σ' : state) : Prop :=
  quiet σ r σ' ∧
  ∀ b, r = Val b →
    out σ' = out σ ∧
    ∃ f f' : flag.FlagSet, fsets σ !! fs = Some f ∧ fsets σ' !! fs = Some f' ∧
      flag.Usage f' = flag.Usage f ∧
      (length (flag.args f') + (if b then 1 else 0) ≤ length (flag.args f))%nat.

(** The loop, likewise; fuel above the number of arguments is enough. *)
Definition parseLoop_post (fuel : nat) (fs : loc) (σ : state) (r : res unit)
    (σ' : state) : Prop :=
  cmds σ' = cmds σ ∧
  (∀ f, fsets σ !! fs = Some f → (length (flag.args f) < fuel)%nat → r ≠ Timeout) ∧
  (r = Val tt →
     out σ' = out σ ∧
     ∃ f f' : flag.FlagSet, fsets σ !! fs = Some f ∧ fsets σ' !! fs = Some f' ∧
       flag.Usage f' = flag.Usage f ∧
       (length (flag.args f') ≤ length (flag.args f))%nat).

(** [FlagSet.Parse] returns; when it succeeds it has printed nothing and the
    arguments it leaves are no more than it was given. *)
Definition FlagSet_Parse_post (fs : loc) (argv : list string) (σ : state)
    (r : res unit) (σ' : state) : Prop :=
  cmds σ' = cmds σ ∧ r ≠ Timeout ∧
  (r = Val tt →
     out σ' = out σ ∧
     ∃ f f' : flag.FlagSet, fsets σ !! fs = Some f ∧ fsets σ' !! fs = Some f' ∧
       flag.Usage f' = flag.Usage f ∧
       (length (flag.args f') ≤ length argv)%nat).


(** The fields of a node that [Parse] never writes before it selects. *)
Definition sameNode (a b : Command.t) : Prop :=
  Command.Usage b = Command.Usage a ∧
  Command.Aliases b = Command.Aliases a ∧
  Command.Subcommands b = Command.Subcommands a ∧
  Command.ArgsValidator b = Command.ArgsValidator a ∧
  Command.Exec b = Command.Exec a ∧
  Command.selected b = Command.selected a.

(** What lines 76 to 86 establish. *)
Definition prepared (c : loc) (σ : state) (fs : loc) (σ0 : state) : Prop :=
  out σ0 = out σ ∧
  ∃ (cmd cmd0 : Command.t) (f0 : flag.FlagSet),
    cmds σ !! c = Some cmd ∧
    cmds σ0 = <[c := cmd0]> (cmds σ) ∧
    sameNode cmd cmd0 ∧
    Command.FlagSet cmd0 = Some fs ∧
    (∀ fs0, Command.FlagSet cmd = Some fs0 → fs0 = fs) ∧
    Command.UsageFunc cmd0 = Some (default defaultUsageFunc (Command.UsageFunc cmd)) ∧
    fsets σ0 !! fs = Some f0 ∧
    flag.Usage f0 = Some (flag.commandUsage c).

(** What a successful flag binding at [c] establishes: nothing was printed,
    the remainder is no longer than the arguments, and in the command heap
    only [c] changed, keeping its identity, children, validator, action and
    selection. *)
Definition bound (c : loc) (argv : list string) (σ : state)
    (rest : list string) (σ1 : state) : Prop :=
  out σ1 = out σ ∧
  (length rest ≤ length argv)%nat ∧
  ∃ (cmd cmd1 : Command.t) (fs : loc) (f1 : flag.FlagSet),
    cmds σ !! c = Some cmd ∧
    cmds σ1 = <[c := cmd1]> (cmds σ) ∧
    sameNode cmd cmd1 ∧
    Command.args cmd1 = rest ∧
    Command.FlagSet cmd1 = Some fs ∧
    (∀ fs0, Command.FlagSet cmd = Some fs0 → fs0 = fs) ∧
    Command.UsageFunc cmd1 = Some (default defaultUsageFunc (Command.UsageFunc cmd)) ∧
    fsets σ1 !! fs = Some f1 ∧
    flag.Usage f1 = Some (flag.commandUsage c).

(** ** How Parse comes to a terminal node *)

Section Vocabulary.
Context `{GoStdlib}.

(** A child pointer that is asked and does not answer to [name]. *)
Definition notSelecting (σ : state) (name : string) (q : option loc) : Prop :=
  ∃ l child, q = Some l ∧ cmds σ !! l = Some child ∧ selectedBy child name = false.

(** [Parse] on [c] makes [c] itself the terminal node: [c] is unparsed, its
    flags bind with remainder [rest], and no child is selected. *)
Definition resolvesSelf (c : loc) (argv : list string) (σ : state)
    (rest : list string) (σ1 : state) : Prop :=
  (∃ cmd, cmds σ !! c = Some cmd ∧ Command.selected cmd = None) ∧
  bindFlags c argv σ = (Val rest, σ1) ∧
  selectChild c rest σ1 = (Val None, σ1).

(** [Parse] on [c] with [argv] in [σ] comes down, child by child, to a call
    of [Parse] on [t] with [argv'] in [σ']. *)
Inductive descends : loc → list string → state → loc → list string → state → Prop :=
| descends_here c argv σ : descends c argv σ c argv σ
| descends_child c argv σ cmd rest σ1 sub σ2 t argv' σ' :
    cmds σ !! c = Some cmd →
    Command.selected cmd = None →
    bindFlags c argv σ = (Val rest, σ1) →
    selectChild c rest σ1 = (Val (Some sub), σ1) →
    setSelected c sub σ1 = (Val tt, σ2) →
    descends sub (tail rest) σ2 t argv' σ' →
    descends c argv σ t argv' σ'.

(** [Parse] on [root] resolves to the terminal node [t], with positional
    remainder [rest], leaving the state [σ1] just before line 102. *)
Definition resolvesTo (root : loc) (argv : list string) (σ : state)
    (t : loc) (rest : list string) (σ1 : state) : Prop :=
  ∃ argv' σt, descends root argv σ t argv' σt ∧ resolvesSelf t argv' σt rest σ1.

(** A child answers to a token by its name or by one of its aliases. *)
Definition answersTo (child : Command.t) (tok : string) : Prop :=
  EqualFold tok (Name child) = true ∨
  Exists (λ alias, EqualFold tok alias = true) (Command.Aliases child).

(** A child pointer in the list that is a node and does not answer. *)
Definition passedOver (σ : state) (tok : string) (q : option loc) : Prop :=
  ∃ l child, q = Some l ∧ cmds σ !! l = Some child ∧ ¬ answersTo child tok.

End Vocabulary.

(** Every validator stored in the tree returns (with nil or an error, by
    exiting or by panicking) on every argument list. *)
Definition validatorsReturn (σ : state) : Prop :=
  ∀ p cmd validate args,
    cmds σ !! p = Some cmd →
    Command.ArgsValidator cmd = Some validate →
    validate args ≠ Timeout.

(** ** Case folding on ASCII *)

(** ASCII case folding, as the fast path of [EqualFold] sees it. *)
Definition lowerByte (n : N) : N :=
  if (65 <=? n)%N && (n <=? 90)%N then (n + 32)%N else n.

Fixpoint lowerBytes (s : string) : list N :=
  match s with
  | EmptyString => []
  | String a s' => lowerByte (byte a) :: lowerBytes s'
  end.

Fixpoint isASCII (s : string) : bool :=
  match s with
  | EmptyString => true
  | String a s' => (byte a <? RuneSelf)%N && isASCII s'
  end.

(** ** The chain of selections *)

(** The command graph is a tree, or at least has no cycle: some rank
    strictly decreases from every node to each of its children. *)
Definition acyclic (rk : loc → nat) (σ : state) : Prop :=
  ∀ p cmd q, cmds σ !! p = Some cmd → Some q ∈ Command.Subcommands cmd →
    (rk q < rk p)%nat.

(** No node has been parsed yet. *)
Definition unparsed (σ : state) : Prop :=
  ∀ p cmd, cmds σ !! p = Some cmd → Command.selected cmd = None.

(** [selChain σ p path]: [path] starts at [p]; every node on it but the last
    has its [selected] pointing to the next one, which is one of its
    children; the last node's [selected] points to that node itself. *)
Inductive selChain (σ : state) : loc → list loc → Prop :=
| selChain_end p cmd :
    cmds σ !! p = Some cmd →
    Command.selected cmd = Some p →
    selChain σ p [p]
| selChain_next p cmd q path :
    cmds σ !! p = Some cmd →
    Command.selected cmd = Some q →
    q ≠ p →
    Some q ∈ Command.Subcommands cmd →
    selChain σ q path →
    selChain σ p (p :: path).

(** * Examples: the test table of scli_test.go, run on the model *)

(** The two library tables, for closed examples.  The command lines below
    are ASCII and no flag value is ever rejected, so neither function is
    called in these runs. *)
Definition exampleStdlib : GoStdlib :=
  {| unicodeEqualFold := λ _ _, false; strconv_Quote := λ s, s |}.

Definition returnsNil : context.Context → list string → res unit :=
  λ _ _, Val tt.

(** A command as a composite literal gives it: the unexported fields and
    [UsageFunc] are zero. *)
Definition newCommand (usage : string) (aliases : list string)
    (subcommands : list (option loc)) (flagSet : option loc)
    (validator : ArgsValidator)
    (exec : option (context.Context → list string → res unit)) : Command.t :=
  {| Command.Usage := usage; Command.Aliases := aliases;
     Command.ShortHelp := "short help"; Command.LongHelp := "long help";
     Command.Subcommands := subcommands; Command.UsageFunc := None;
     Command.FlagSet := flagSet; Command.ArgsValidator := validator;
     Command.Exec := exec; Command.selected := None; Command.args := [] |}.

(** [flag.NewFlagSet("emptyFlags", flag.ContinueOnError)]. *)
Definition emptyFlags : flag.FlagSet :=
  {| flag.Usage := Some flag.defaultUsage; flag.name := "emptyFlags";
     flag.parsed := false; flag.actual := ∅; flag.formal := ∅;
     flag.args := []; flag.errorHandling := flag.ContinueOnError |}.

(** "Root Help Flag", "Root": a root with [NoArgs] and [emptyFlags]. *)
Definition rootCmd : Command.t :=
  newCommand "" [] [] (Some 0) (Some NoArgs) (Some returnsNil).
Definition rootState : state :=
  mkState {[ 0 := rootCmd ]} {[ 0 := emptyFlags ]} [].


(** "Aliased Sub": a root whose child [sub] has the alias [foobar]. *)
Definition aliasedRoot : Command.t :=
  newCommand "AliasedSubCommand" [] [Some 1] (Some 0) (Some NoArgs) None.
Definition aliasedSub : Command.t :=
  newCommand "sub" ["foobar"] [] (Some 1) (Some NoArgs) (Some returnsNil).
Definition aliasedState : state :=
  mkState {[ 0 := aliasedRoot; 1 := aliasedSub ]}
          {[ 0 := emptyFlags; 1 := emptyFlags ]} [].
Definition aliasedRank (p : loc) : nat := if bool_decide (p = 0) then 1 else 0.

(** A root whose validator is [OnlyValidArgs] of nothing. *)
Definition anyArgsCmd : Command.t :=
  newCommand "" [] [] (Some 0) (OnlyValidArgs []) (Some returnsNil).
Definition anyArgsState : state :=
  mkState {[ 0 := anyArgsCmd ]} {[ 0 := emptyFlags ]} [].

(** A root with an action whose child [sub] is a namespace without one. *)
Definition namespaceRoot : Command.t :=
  newCommand "root" [] [Some 1] (Some 0) (Some NoArgs) (Some returnsNil).
Definition namespaceSub : Command.t :=
  newCommand "sub" [] [] (Some 1) (Some NoArgs) None.
Definition namespaceState : state :=
  mkState {[ 0 := namespaceRoot; 1 := namespaceSub ]}
          {[ 0 := emptyFlags; 1 := emptyFlags ]} [].


(** A root with three children whose usages go on after the name.  The
    second and the third both answer to [sub], the third by an alias. *)
Definition severalRoot : Command.t :=
  newCommand "tool [flags] <command>" [] [Some 1; Some 2; Some 3] (Some 0)
             (Some NoArgs) None.
Definition severalFirst : Command.t :=
  newCommand "first <name>" ["one"] [] (Some 1) None (Some returnsNil).
Definition severalSub : Command.t :=
  newCommand "sub <file> [options]" ["foobar"] [] (Some 2) None (Some returnsNil).
Definition severalThird : Command.t :=
  newCommand "third" ["sub"] [] (Some 3) None (Some returnsNil).
Definition severalState : state :=
  mkState {[ 0 := severalRoot; 1 := severalFirst; 2 := severalSub; 3 := severalThird ]}
          {[ 0 := emptyFlags; 1 := emptyFlags; 2 := emptyFlags; 3 := emptyFlags ]} [].
(** * Further vocabulary *)

(** A validator accepts an argument list when calling it returns nil. *)
Definition accepts (v : ArgsValidator) (args : list string) : Prop :=
  call v args = Val tt.

(** A call that returns: with nil, or with an [errors.New]-style error. *)
Definition returnsPlainly (r : res unit) : Prop :=
  r = Val tt ∨ ∃ msg, r = Err (errorString msg).

(** Every flag-set pointer stored in a node points to a flag set (in Go a
    non-nil pointer always does). *)
Definition flagSetsAllocated (σ : state) : Prop :=
  ∀ p cmd fs, cmds σ !! p = Some cmd → Command.FlagSet cmd = Some fs →
    is_Some (fsets σ !! fs).

(** A token that [FlagSet.parseOne] does not take for a flag: shorter than
    two bytes, or not beginning with a minus sign. *)
Definition notFlag (s : string) : Prop :=
  (String.length s < 2)%nat ∨ String.get 0 s ≠ Some "-"%char.

(** What [Parse] may do to a node: fill in a nil [FlagSet] or [UsageFunc]
    and, as long as the node has no selection, write [selected] and [args].
    Everything else stays, and a node that has a selection stays as it is. *)
Definition keepsNode (a b : Command.t) : Prop :=
  Command.Usage b = Command.Usage a ∧
  Command.Aliases b = Command.Aliases a ∧
  Command.ShortHelp b = Command.ShortHelp a ∧
  Command.LongHelp b = Command.LongHelp a ∧
  Command.Subcommands b = Command.Subcommands a ∧
  Command.ArgsValidator b = Command.ArgsValidator a ∧
  Command.Exec b = Command.Exec a ∧
  (∀ fs, Command.FlagSet a = Some fs → Command.FlagSet b = Some fs) ∧
  (∀ u, Command.UsageFunc a = Some u → Command.UsageFunc b = Some u) ∧
  (is_Some (Command.selected a) → b = a).

(** The same over the whole heap of nodes; no node appears or disappears. *)
Definition keepsTree (σ σ' : state) : Prop :=
  ∀ p, match cmds σ !! p, cmds σ' !! p with
       | Some a, Some b => keepsNode a b
       | None, None => True
       | _, _ => False
       end.

(** What the flag binding at an unselected node does to the heap of nodes,
    however it ends. *)
Definition rewrites (c : loc) (a : Command.t) (σ σ' : state) : Prop :=
  ∃ b, cmds σ' = <[c := b]> (cmds σ) ∧ keepsNode a b ∧ Command.selected b = None.

(** What [Run] finds at a terminal node, from the result of the node's
    [Exec]: an error that is, or wraps, [flag.ErrHelp] or
    [ErrInvalidArguments] has the deferred function render the usage before
    the error is returned; anything else is handed on as it is. *)
Definition handsOn (t : loc) (r : res unit) : M unit :=
  match r with
  | Err err =>
      if errors_Is err ErrHelp || errors_Is err ErrInvalidArguments
      then let* _ := callFlagSetUsage t in fail err
      else fail err
  | r => lift r
  end.

(** A set of nodes in which every node selects another node of the set. *)
Definition selectionLoop (nodes : loc → Prop) (σ : state) : Prop :=
  ∀ p, nodes p → ∃ cmd q,
    cmds σ !! p = Some cmd ∧ Command.selected cmd = Some q ∧ q ≠ p ∧ nodes q.


(** ** Further examples *)



(** Two commands that have each other as a child. *)
Definition loopRoot : Command.t :=
  newCommand "root" [] [Some 1] (Some 0) None (Some returnsNil).
Definition loopSub : Command.t :=
  newCommand "sub" [] [Some 0] (Some 1) None (Some returnsNil).
Definition loopState : state :=
  mkState {[ 0 := loopRoot; 1 := loopSub ]}
          {[ 0 := emptyFlags; 1 := emptyFlags ]} [].


(** * Verification *)

(** ** Reasoning about computations *)

Lemma wp_intro {A} (m : M A) Q σ r σ' : m σ = (r, σ') → wp m Q σ → Q r σ'.
Proof. unfold wp. intros ->. done. Qed.

Lemma wp_elim {A} (m : M A) (Q : res A → state → Prop) σ :
  (∀ r σ', m σ = (r, σ') → Q r σ') → wp m Q σ.
Proof. unfold wp. intros HQ. apply HQ. by destruct (m σ). Qed.

Lemma wp_mono {A} (m : M A) (Q Q' : res A → state → Prop) σ :
  wp m Q σ → (∀ r σ', Q r σ' → Q' r σ') → wp m Q' σ.
Proof. unfold wp. auto. Qed.

Lemma wp_bind {A B} (m : M A) (k : A → M B) Q σ :
  wp m (λ r σ', match r with
                | Val a => wp (k a) Q σ'
                | _ => Q (coerce r) σ'
                end) σ →
  wp (bind m k) Q σ.
Proof. unfold wp, bind. by destruct (m σ) as [[] ?]. Qed.

Lemma wp_ret {A} (a : A) (Q : res A → state → Prop) σ : Q (Val a) σ → wp (ret a) Q σ.
Proof. done. Qed.

Lemma wp_fail {A} e (Q : res A → state → Prop) σ : Q (Err e) σ → wp (fail e) Q σ.
Proof. done. Qed.

Lemma wp_panic {A} p (Q : res A → state → Prop) σ : Q (Panic p) σ → wp (panic p) Q σ.
Proof. done. Qed.

Lemma wp_lift {A} r (Q : res A → state → Prop) σ : Q r σ → wp (lift r) Q σ.
Proof. done. Qed.

Lemma wp_emit e (Q : res unit → state → Prop) σ :
  Q (Val tt) (mkState (cmds σ) (fsets σ) (out σ ++ [e])) → wp (emit e) Q σ.
Proof. done. Qed.

Lemma wp_getCommand c (Q : res Command.t → state → Prop) σ :
  match cmds σ !! c with
  | Some cmd => Q (Val cmd) σ
  | None => Q (Panic nilDereference) σ
  end → wp (getCommand c) Q σ.
Proof. unfold wp, getCommand. by destruct (cmds σ !! c). Qed.

Lemma wp_getFlagSet fs (Q : res flag.FlagSet → state → Prop) σ :
  match fsets σ !! fs with
  | Some f => Q (Val f) σ
  | None => Q (Panic nilDereference) σ
  end → wp (getFlagSet fs) Q σ.
Proof. unfold wp, getFlagSet. by destruct (fsets σ !! fs). Qed.

Lemma wp_putCommand c cmd (Q : res unit → state → Prop) σ :
  Q (Val tt) (mkState (<[c := cmd]> (cmds σ)) (fsets σ) (out σ)) →
  wp (putCommand c cmd) Q σ.
Proof. done. Qed.

Lemma wp_putFlagSet fs f (Q : res unit → state → Prop) σ :
  Q (Val tt) (mkState (cmds σ) (<[fs := f]> (fsets σ)) (out σ)) →
  wp (putFlagSet fs f) Q σ.
Proof. done. Qed.

(** One step of symbolic execution. *)
Ltac wp_step :=
  lazymatch goal with
  | |- wp (bind _ _) _ _ => apply wp_bind
  | |- wp (ret _) _ _ => apply wp_ret
  | |- wp (fail _) _ _ => apply wp_fail
  | |- wp (panic _) _ _ => apply wp_panic
  | |- wp (lift _) _ _ => apply wp_lift
  | |- wp (emit _) _ _ => apply wp_emit
  | |- wp (getCommand _) _ _ => apply wp_getCommand
  | |- wp (getFlagSet _) _ _ => apply wp_getFlagSet
  | |- wp (putCommand _ _) _ _ => apply wp_putCommand
  | |- wp (putFlagSet _ _) _ _ => apply wp_putFlagSet
  end.

Ltac wp_steps :=
  repeat (first [wp_step | progress cbn [cmds fsets out coerce]]).

(** The recursive functions are unfolded by hand. *)
Arguments FlagSet_parseLoop : simpl never.
Arguments Parse_fuel : simpl never.
Arguments Run_fuel : simpl never.

(** ** The flag package never touches the commands *)

Lemma commandUsageClosure_quiet c σ :
  wp (commandUsageClosure c) (λ r σ', quiet σ r σ' ∧ fsets σ' = fsets σ) σ.
Proof.
  unfold commandUsageClosure, quiet.
  repeat (first [wp_step | progress cbn beta iota | case_match]); done.
Qed.

Lemma runUsageHook_quiet fs h σ :
  wp (runUsageHook fs h) (λ r σ', quiet σ r σ' ∧ fsets σ' = fsets σ) σ.
Proof.
  destruct h; [by apply wp_emit|]. apply commandUsageClosure_quiet.
Qed.

Lemma FlagSet_usage_quiet fs σ :
  wp (FlagSet_usage fs) (λ r σ', quiet σ r σ' ∧ fsets σ' = fsets σ) σ.
Proof.
  unfold FlagSet_usage. wp_steps.
  destruct (fsets σ !! fs) as [f|]; cbn; [|done].
  destruct (flag.Usage f); [apply runUsageHook_quiet | by apply wp_emit].
Qed.

Lemma callFlagSetUsage_quiet c σ :
  wp (callFlagSetUsage c) (λ r σ', quiet σ r σ' ∧ fsets σ' = fsets σ) σ.
Proof.
  unfold callFlagSetUsage. wp_steps.
  destruct (cmds σ !! c) as [cmd|]; cbn; [|done].
  destruct (Command.FlagSet cmd) as [fs|]; wp_steps; [|done].
  destruct (fsets σ !! fs) as [f|]; cbn; [|done].
  destruct (flag.Usage f); [apply runUsageHook_quiet | by apply wp_panic].
Qed.

(** A usage call returns or panics; it never fails with an error. *)
Lemma callFlagSetUsage_result c σ :
  wp (callFlagSetUsage c) (λ r _, r = Val tt ∨ r = Panic nilDereference) σ.
Proof.
  unfold callFlagSetUsage, runUsageHook, commandUsageClosure.
  repeat (first [wp_step | progress cbn beta iota | case_match]); auto.
Qed.

Lemma FlagSet_failf_quiet {A} fs msg σ :
  wp (FlagSet_failf (A:=A) fs msg)
     (λ r σ', quiet σ r σ' ∧ fsets σ' = fsets σ ∧ ∀ a, r ≠ Val a) σ.
Proof.
  unfold FlagSet_failf. wp_steps.
  eapply wp_mono; [apply FlagSet_usage_quiet|].
  intros r σ' [[Hc Hr] Hf]. cbn in *.
  destruct r; cbn; unfold quiet; cbn; try done.
Qed.

Section FlagFacts.
Context `{GoStdlib}.

Lemma wp_parseLoop_S fuel fs (Q : res unit → state → Prop) σ :
  wp (FlagSet_parseOne fs)
     (λ r σ',
        match r with
        | Val true => wp (FlagSet_parseLoop fuel fs) Q σ'
        | Val false => Q (Val tt) σ'
        | Err err =>
            match fsets σ' !! fs with
            | None => Q (Panic nilDereference) σ'
            | Some f =>
                match flag.errorHandling f with
                | flag.ContinueOnError => Q (Err err) σ'
                | flag.ExitOnError =>
                    if bool_decide (err = ErrHelp) then Q (Exit 0) σ' else Q (Exit 2) σ'
                | flag.PanicOnError => Q (Panic (panicError err)) σ'
                end
            end
        | Exit n => Q (Exit n) σ'
        | Panic p => Q (Panic p) σ'
        | Timeout => Q Timeout σ'
        end) σ →
  wp (FlagSet_parseLoop (S fuel) fs) Q σ.
Proof.
  unfold wp.
  change (FlagSet_parseLoop (S fuel) fs σ) with
    (match FlagSet_parseOne fs σ with
     | (Val true, σ') => FlagSet_parseLoop fuel fs σ'
     | (Val false, σ') => (Val tt, σ')
     | (Err err, σ') =>
         match fsets σ' !! fs with
         | None => (Panic nilDereference, σ')
         | Some f =>
             match flag.errorHandling f with
             | flag.ContinueOnError => (Err err, σ')
             | flag.ExitOnError =>
                 if bool_decide (err = ErrHelp) then (Exit 0, σ') else (Exit 2, σ')
             | flag.PanicOnError => (Panic (panicError err), σ')
             end
         end
     | (Exit n, σ') => (Exit n, σ')
     | (Panic p, σ') => (Panic p, σ')
     | (Timeout, σ') => (Timeout, σ')
     end).
  destruct (FlagSet_parseOne fs σ) as [[[]| | | |] σ']; cbn; try done.
  destruct (fsets σ' !! fs) as [f|]; [|done].
  destruct (flag.errorHandling f); [done| |done]. by case_bool_decide.
Qed.

Lemma FlagSet_parseOne_spec fs σ :
  wp (FlagSet_parseOne fs) (parseOne_post fs σ) σ.
Proof.
  unfold FlagSet_parseOne, parseOne_post, quiet.
  repeat (first [wp_step | progress cbn beta iota | case_match]).
  all: try (eapply wp_mono; [apply FlagSet_failf_quiet|]; cbn;
            intros r σ' ([Hc Hr] & Hf & Hv);
            (split; [split; [by rewrite Hc | done] |]);
            let seen := fresh in intros seen ->; by destruct (Hv seen)).
  all: try (eapply wp_mono; [apply FlagSet_usage_quiet|]; cbn;
            intros r σ' [[Hc Hr] Hf]; destruct r; try done; unfold wp; cbn;
            (split; [split; [by rewrite Hc | done] | by intros ? [=]])).
  all: (split; [done|]); (let seen := fresh in intros seen [= <-]); (split; [done|]).
  all: eexists _, _; (split; [done|]); cbn.
  all: rewrite ?lookup_insert_eq; try (split; [done|]).
  all: cbn; try (split; [done|]).
  all: simplify_eq/=.
  all: repeat match goal with E : flag.args _ = _ |- _ => rewrite E end; cbn.
  all: try split; try done; lia.
Qed.

Lemma FlagSet_parseLoop_spec fuel fs σ :
  wp (FlagSet_parseLoop fuel fs) (parseLoop_post fuel fs σ) σ.
Proof.
  revert σ. induction fuel as [|fuel IH]; intros σ.
  { unfold wp, parseLoop_post; cbn. split; [done|]. split; [|done].
    intros f _ ?. lia. }
  apply wp_elim. intros r σ' Hrun.
  change (FlagSet_parseLoop (S fuel) fs σ) with
    (match FlagSet_parseOne fs σ with
     | (Val true, σ') => FlagSet_parseLoop fuel fs σ'
     | (Val false, σ') => (Val tt, σ')
     | (Err err, σ') =>
         match fsets σ' !! fs with
         | None => (Panic nilDereference, σ')
         | Some f =>
             match flag.errorHandling f with
             | flag.ContinueOnError => (Err err, σ')
             | flag.ExitOnError =>
                 if bool_decide (err = ErrHelp) then (Exit 0, σ') else (Exit 2, σ')
             | flag.PanicOnError => (Panic (panicError err), σ')
             end
         end
     | (Exit n, σ') => (Exit n, σ')
     | (Panic p, σ') => (Panic p, σ')
     | (Timeout, σ') => (Timeout, σ')
     end) in Hrun.
  destruct (FlagSet_parseOne fs σ) as [r1 σ1] eqn:Hone.
  pose proof (wp_intro _ _ _ _ _ Hone (FlagSet_parseOne_spec fs σ)) as [[Hc Ht] Hv].
  destruct r1 as [seen|err|n|p|]; [| |by simplify_eq..|by simplify_eq|done].
  - destruct (Hv seen eq_refl) as (Ho & f & f1 & Hf & Hf1 & Hu & Hlen).
    destruct seen.
    + pose proof (wp_intro _ _ _ _ _ Hrun (IH σ1)) as (Hc' & Ht' & Hv').
      split; [congruence|]. split.
      * intros g Hg Hlt. simplify_eq. apply (Ht' f1 Hf1). lia.
      * intros ->. destruct (Hv' eq_refl) as (Ho' & g & g' & Hg & Hg' & Hu' & Hlen').
        split; [congruence|]. exists f, g'. simplify_eq.
        repeat split; [done|done|congruence|lia].
    + simplify_eq. split; [done|]. split; [done|]. intros _.
      split; [done|]. exists f, f1. repeat split; [done..|lia].
  - destruct (fsets σ1 !! fs) as [f1|]; [|by simplify_eq].
    destruct (flag.errorHandling f1); [| case_bool_decide |]; by simplify_eq.
Qed.

Lemma FlagSet_Parse_spec fs argv σ :
  wp (FlagSet_Parse fs argv) (FlagSet_Parse_post fs argv σ) σ.
Proof.
  unfold FlagSet_Parse. wp_steps.
  destruct (fsets σ !! fs) as [f|] eqn:Hf; cbn; [|done].
  wp_steps.
  eapply wp_mono; [apply FlagSet_parseLoop_spec|].
  intros r σ' (Hc & Ht & Hv). cbn in *. split; [done|]. split.
  - eapply Ht; [apply lookup_insert_eq|]. cbn. lia.
  - intros ->. destruct (Hv eq_refl) as (Ho & g & g' & Hg & Hg' & Hu & Hlen).
    rewrite lookup_insert_eq in Hg. simplify_eq. cbn in *. eauto 10.
Qed.
End FlagFacts.

(** *** The failures of a flag set *)

Lemma FlagSet_usage_result fs σ :
  wp (FlagSet_usage fs) (λ r _, r = Val tt ∨ r = Panic nilDereference) σ.
Proof.
  unfold FlagSet_usage, runUsageHook, commandUsageClosure.
  repeat (first [wp_step | progress cbn beta iota | case_match]); auto.
Qed.

Lemma FlagSet_failf_result {A} fs msg σ :
  wp (FlagSet_failf (A:=A) fs msg)
     (λ r _, r = Err (errorString msg) ∨ r = Panic nilDereference) σ.
Proof.
  unfold FlagSet_failf. wp_steps.
  eapply wp_mono; [apply FlagSet_usage_result|].
  intros r σ' [-> | ->]; cbn; auto. wp_steps. auto.
Qed.

Section FlagFailures.
Context `{GoStdlib}.



End FlagFailures.

(** ** Facts about Parse *)

Lemma wp_NewFlagSet name eh (Q : res loc → state → Prop) σ :
  (let fs := fresh (dom (fsets σ)) in
   Q (Val fs)
     (mkState (cmds σ)
        (<[fs := {| flag.Usage := Some flag.defaultUsage; flag.name := name;
                    flag.parsed := false; flag.actual := ∅; flag.formal := ∅;
                    flag.args := []; flag.errorHandling := eh |}]> (fsets σ))
        (out σ))) →
  wp (NewFlagSet name eh) Q σ.
Proof. done. Qed.

Section ParseFacts.
Context `{GoStdlib}.

Lemma prepareFlagSet_spec c σ :
  wp (prepareFlagSet c)
     (λ r σ0, r ≠ Timeout ∧ ∀ fs, r = Val fs → prepared c σ fs σ0) σ.
Proof.
  unfold prepareFlagSet, prepared.
  apply wp_bind, wp_getCommand.
  destruct (cmds σ !! c) as [cmd|] eqn:Hcmd; [|done]. cbn beta iota.
  destruct (Command.FlagSet cmd) as [fs|] eqn:Hfs.
  - wp_steps. rewrite Hcmd.
    destruct (Command.UsageFunc cmd) as [u|] eqn:Hu; wp_steps.
    + destruct (fsets σ !! fs) as [f|] eqn:Hf; cbn; [|done].
      wp_steps. split; [done|]. intros ? [= <-]. split; [done|].
      exists cmd, cmd, (flag.with_Usage (Some (flag.commandUsage c)) f). cbn.
      rewrite insert_id by done. rewrite lookup_insert_eq, Hu.
      repeat split; try done; try congruence.
    + destruct (fsets σ !! fs) as [f|] eqn:Hf; cbn; [|done].
      wp_steps. split; [done|]. intros ? [= <-]. split; [done|].
      exists cmd, (Command.with_UsageFunc (Some defaultUsageFunc) cmd),
        (flag.with_Usage (Some (flag.commandUsage c)) f). cbn.
      rewrite lookup_insert_eq, Hu.
      repeat split; try done; try congruence.
  - apply wp_bind, wp_bind, wp_NewFlagSet. cbn.
    set (fs := fresh (dom (fsets σ))).
    wp_steps. rewrite !lookup_insert_eq. cbn.
    destruct (Command.UsageFunc cmd) as [u|] eqn:Hu; wp_steps.
    + rewrite lookup_insert_eq. wp_steps. split; [done|]. intros ? [= <-].
      split; [done|].
      eexists cmd, (Command.with_FlagSet (Some fs) cmd), _. cbn.
      rewrite lookup_insert_eq, Hu.
      repeat split; try done; congruence.
    + rewrite lookup_insert_eq. wp_steps. split; [done|]. intros ? [= <-].
      split; [done|].
      eexists cmd, (Command.with_UsageFunc (Some defaultUsageFunc)
                      (Command.with_FlagSet (Some fs) cmd)), _. cbn.
      rewrite insert_insert_eq, lookup_insert_eq, Hu.
      repeat split; try done; congruence.
Qed.

Lemma bindFlags_spec c argv σ :
  wp (bindFlags c argv)
     (λ r σ1, r ≠ Timeout ∧ ∀ rest, r = Val rest → bound c argv σ rest σ1) σ.
Proof.
  unfold bindFlags. apply wp_bind.
  eapply wp_mono; [apply prepareFlagSet_spec|].
  intros r σ0 [Ht Hp]. destruct r as [fs| | | |]; [|done..].
  destruct (Hp fs eq_refl)
    as (Ho & cmd & cmd0 & f0 & Hcmd & Hcmds & Hsame & Hfs & Hfs0 & Hu & Hf0 & Hhook).
  apply wp_bind. eapply wp_mono; [apply FlagSet_Parse_spec|].
  intros r σ1 (Hc1 & Ht1 & Hv1). destruct r as [[]| | | |]; [|done..].
  destruct (Hv1 eq_refl) as (Ho1 & g & f1 & Hg & Hf1 & Hhook1 & Hlen).
  unfold FlagSet_Args. wp_steps. rewrite Hf1. wp_steps.
  rewrite Hc1, Hcmds, lookup_insert_eq. wp_steps.
  split; [done|]. intros ? [= <-]. unfold bound; cbn.
  split; [congruence|]. split; [done|].
  exists cmd, (Command.with_args (flag.args f1) cmd0), fs, f1. cbn.
  rewrite Hc1, Hcmds, insert_insert_eq.
  repeat split; try done; try apply Hsame. congruence.
Qed.

Lemma findSubcommand_spec subs name σ :
  wp (findSubcommand subs name)
     (λ r σ', σ' = σ ∧ r ≠ Timeout ∧
        (∀ sub, r = Val (Some sub) →
           ∃ pre post child,
             subs = (pre ++ Some sub :: post) ∧
             Forall (notSelecting σ name) pre ∧
             cmds σ !! sub = Some child ∧ selectedBy child name = true) ∧
        (r = Val None → Forall (notSelecting σ name) subs)) σ.
Proof.
  induction subs as [|[l|] subs IH]; cbn [findSubcommand].
  - apply wp_ret. repeat split; [done..| |done]. by intros ? [=].
  - apply wp_bind, wp_getCommand.
    destruct (cmds σ !! l) as [child|] eqn:Hl; [|done]. cbn beta iota.
    destruct (selectedBy child name) eqn:Hsel.
    + apply wp_ret. repeat split; [done..| |done].
      intros ? [= <-]. by exists [], subs, child.
    + eapply wp_mono; [apply IH|]. intros r σ' (-> & Ht & Hs & Hn).
      repeat split; [done..| |].
      * intros sub Hsub. destruct (Hs sub Hsub) as (pre & post & ch & -> & Hpre & ?).
        exists (Some l :: pre), post, ch. split; [done|]. split; [|done].
        constructor; [|done]. by exists l, child.
      * intros Hr. constructor; [|by apply Hn]. by exists l, child.
  - apply wp_panic. repeat split; done.
Qed.

(** The first child in declaration order that answers to [name] is the
    one found. *)
Lemma findSubcommand_first pre sub post child name σ :
  Forall (notSelecting σ name) pre →
  cmds σ !! sub = Some child →
  selectedBy child name = true →
  findSubcommand (pre ++ Some sub :: post) name σ = (Val (Some sub), σ).
Proof.
  intros Hpre Hsub Hsel. induction Hpre as [|q pre (l & ch & -> & Hl & Hno) _ IH].
  - cbn [app findSubcommand]. unfold bind, getCommand.
    rewrite Hsub. cbn beta iota. by rewrite Hsel.
  - cbn [app findSubcommand]. unfold bind at 1. unfold getCommand at 1.
    rewrite Hl. cbn beta iota. by rewrite Hno.
Qed.

Lemma selectChild_spec c rest σ :
  wp (selectChild c rest)
     (λ r σ', σ' = σ ∧ r ≠ Timeout ∧
        ∀ sub, r = Val (Some sub) →
          ∃ first cmd pre post child,
            head rest = Some first ∧
            cmds σ !! c = Some cmd ∧
            Command.Subcommands cmd = (pre ++ Some sub :: post) ∧
            Forall (notSelecting σ first) pre ∧
            cmds σ !! sub = Some child ∧ selectedBy child first = true) σ.
Proof.
  destruct rest as [|first tl]; cbn [selectChild].
  - apply wp_ret. repeat split; [done..|]. by intros ? [=].
  - apply wp_bind, wp_getCommand.
    destruct (cmds σ !! c) as [cmd|] eqn:Hc; [|done]. cbn beta iota.
    eapply wp_mono; [apply findSubcommand_spec|].
    intros r σ' (-> & Ht & Hs & _). repeat split; [done..|].
    intros sub Hsub. destruct (Hs sub Hsub) as (pre & post & ch & ? & ? & ? & ?).
    by exists first, cmd, pre, post, ch.
Qed.

(** *** Fuel *)

Lemma Parse_fuel_S fuel c argv :
  Parse_fuel (S fuel) c argv =
  (let* cmd := getCommand c in
   match Command.selected cmd with
   | Some _ => ret tt
   | None =>
       let* rest := bindFlags c argv in
       let* child := selectChild c rest in
       match child with
       | Some sub =>
           let* _ := setSelected c sub in
           Parse_fuel fuel sub (tail rest)
       | None => resolveSelf c
       end
   end).
Proof. reflexivity. Qed.

(** Two computations that agree after the same first step. *)
Lemma bind_congr {A B} (m : M A) (k1 k2 : A → M B) σ :
  wp m (λ r σ', ∀ a, r = Val a → k1 a σ' = k2 a σ') σ →
  bind m k1 σ = bind m k2 σ.
Proof. unfold wp, bind. destruct (m σ) as [[] ?]; cbn; auto. Qed.

(** The depth of the recursion is bounded by the length of the argument
    vector: any fuel above it gives the same run. *)
Lemma Parse_fuel_indep n :
  ∀ m c argv σ, (length argv < n)%nat → (length argv < m)%nat →
    Parse_fuel n c argv σ = Parse_fuel m c argv σ.
Proof.
  induction n as [|n IH]; intros m c argv σ Hn Hm; [lia|].
  destruct m as [|m]; [lia|]. rewrite !Parse_fuel_S.
  apply bind_congr, wp_getCommand.
  destruct (cmds σ !! c) as [cmd|]; [|done]. intros ? [= <-].
  destruct (Command.selected cmd); [done|].
  apply bind_congr. eapply wp_mono; [apply bindFlags_spec|].
  intros r σ1 [_ Hb] rest ->. destruct (Hb rest eq_refl) as (_ & Hlen & _).
  apply bind_congr. eapply wp_mono; [apply selectChild_spec|].
  intros r σ' (-> & _ & Hs) [sub|] ->; [|done].
  destruct (Hs sub eq_refl) as (first & _ & _ & _ & _ & Hhd & _).
  destruct rest as [|? tl]; [done|]. cbn in *.
  apply bind_congr. apply wp_elim. intros r σ2 _ [] ->.
  apply IH; lia.
Qed.

Lemma Parse_fuel_enough fuel c argv σ :
  (length argv < fuel)%nat → Parse_fuel fuel c argv σ = Parse c argv σ.
Proof. intros. apply Parse_fuel_indep; lia. Qed.

(** [Parse] in terms of itself. *)
Lemma Parse_unfold c argv σ :
  Parse c argv σ =
  (let* cmd := getCommand c in
   match Command.selected cmd with
   | Some _ => ret tt
   | None =>
       let* rest := bindFlags c argv in
       let* child := selectChild c rest in
       match child with
       | Some sub =>
           let* _ := setSelected c sub in
           Parse sub (tail rest)
       | None => resolveSelf c
       end
   end) σ.
Proof.
  unfold Parse at 1. rewrite Parse_fuel_S.
  apply bind_congr, wp_getCommand.
  destruct (cmds σ !! c) as [cmd|]; [|done]. intros ? [= <-].
  destruct (Command.selected cmd); [done|].
  apply bind_congr. eapply wp_mono; [apply bindFlags_spec|].
  intros r σ1 [_ Hb] rest ->. destruct (Hb rest eq_refl) as (_ & Hlen & _).
  apply bind_congr. eapply wp_mono; [apply selectChild_spec|].
  intros r σ' (-> & _ & Hs) [sub|] ->; [|done].
  destruct (Hs sub eq_refl) as (first & _ & _ & _ & _ & Hhd & _).
  destruct rest as [|? tl]; [done|]. cbn in *.
  apply bind_congr. apply wp_elim. intros r σ2 _ [] ->.
  apply Parse_fuel_enough. lia.
Qed.

(** *** Reaching the terminal node *)


Lemma Parse_child c argv σ cmd rest σ1 sub σ2 :
  cmds σ !! c = Some cmd →
  Command.selected cmd = None →
  bindFlags c argv σ = (Val rest, σ1) →
  selectChild c rest σ1 = (Val (Some sub), σ1) →
  setSelected c sub σ1 = (Val tt, σ2) →
  Parse c argv σ = Parse sub (tail rest) σ2.
Proof.
  intros Hc Hsel Hb Hs Hset. rewrite Parse_unfold.
  unfold bind at 1. unfold getCommand. rewrite Hc, Hsel.
  unfold bind at 1. rewrite Hb. unfold bind at 1. rewrite Hs.
  unfold bind at 1. by rewrite Hset.
Qed.

Lemma Parse_resolvesSelf c argv σ rest σ1 :
  resolvesSelf c argv σ rest σ1 → Parse c argv σ = resolveSelf c σ1.
Proof.
  intros [(cmd & Hc & Hsel) [Hb Hs]]. rewrite Parse_unfold.
  unfold bind at 1. unfold getCommand. rewrite Hc, Hsel.
  unfold bind at 1. rewrite Hb. unfold bind at 1. by rewrite Hs.
Qed.

Lemma setSelected_out c sub σ r σ' :
  setSelected c sub σ = (r, σ') → out σ' = out σ.
Proof.
  unfold setSelected, bind, getCommand, putCommand.
  destruct (cmds σ !! c); by intros [= _ <-].
Qed.

Lemma bindFlags_Val c argv σ rest σ1 :
  bindFlags c argv σ = (Val rest, σ1) → bound c argv σ rest σ1.
Proof.
  intros Hb. by destruct (wp_intro _ _ _ _ _ Hb (bindFlags_spec c argv σ)) as [_ ?]; auto.
Qed.

Lemma Parse_descends c argv σ t argv' σ' :
  descends c argv σ t argv' σ' →
  Parse c argv σ = Parse t argv' σ' ∧ out σ' = out σ.
Proof.
  induction 1 as [|c argv σ cmd rest σ1 sub σ2 t argv' σ' Hc Hsel Hb Hs Hset _ [IH1 IH2]];
    [done|].
  split.
  - by rewrite (Parse_child _ _ _ _ _ _ _ _ Hc Hsel Hb Hs Hset).
  - rewrite IH2, (setSelected_out _ _ _ _ _ Hset).
    by destruct (bindFlags_Val _ _ _ _ _ Hb).
Qed.

Lemma Parse_resolvesTo root argv σ t rest σ1 :
  resolvesTo root argv σ t rest σ1 →
  Parse root argv σ = resolveSelf t σ1 ∧ out σ1 = out σ ∧
  ∃ cmd1 fs f1,
    cmds σ1 !! t = Some cmd1 ∧
    Command.selected cmd1 = None ∧
    Command.args cmd1 = rest ∧
    Command.FlagSet cmd1 = Some fs ∧ is_Some (Command.UsageFunc cmd1) ∧
    fsets σ1 !! fs = Some f1 ∧ flag.Usage f1 = Some (flag.commandUsage t).
Proof.
  intros (argv' & σt & Hd & Hself).
  destruct (Parse_descends _ _ _ _ _ _ Hd) as [HP Ho].
  pose proof (Parse_resolvesSelf _ _ _ _ _ Hself) as HR.
  destruct Hself as [(cmd & Hc & Hsel) [Hb Hs]].
  destruct (bindFlags_Val _ _ _ _ _ Hb)
    as (Ho1 & _ & cmd' & cmd1 & fs & f1 & Hc' & Hcmds & Hsame & Ha & Hfs & _ & Hu & Hf1 & Hhook).
  split; [congruence|]. split; [congruence|].
  exists cmd1, fs, f1. rewrite Hcmds, lookup_insert_eq.
  destruct Hsame as (_ & _ & _ & _ & _ & Hs').
  repeat split; try done; try congruence.
Qed.

(** The terminal step, case by case. *)
Lemma resolveSelf_eval c σ1 cmd1 :
  cmds σ1 !! c = Some cmd1 →
  let cmd2 := Command.with_selected (Some c) cmd1 in
  let σ2 := mkState (<[c := cmd2]> (cmds σ1)) (fsets σ1) (out σ1) in
  resolveSelf c σ1 =
  match Command.Exec cmd1 with
  | None => (Err (NoExecError c), σ2)
  | Some _ =>
      match Command.ArgsValidator cmd1 with
      | None => (Val tt, σ2)
      | Some validate =>
          match validate (Command.args cmd1) with
          | Err err =>
              (let* _ := callFlagSetUsage c in
               let* msg := error_Error err in
               fail (wrapError ("invalid arguments: " +:+ msg) ErrInvalidArguments)) σ2
          | r => (r, σ2)
          end
      end
  end.
Proof.
  intros Hc. cbn zeta. unfold resolveSelf, setSelected.
  unfold bind at 1. unfold bind at 1. unfold getCommand at 1. rewrite Hc.
  unfold putCommand at 1. unfold bind at 1. unfold getCommand at 1.
  cbn [cmds]. rewrite lookup_insert_eq. cbn [Command.with_selected Command.Exec
    Command.ArgsValidator Command.args].
  destruct (Command.Exec cmd1); [|done].
  destruct (Command.ArgsValidator cmd1) as [validate|]; [|done].
  by destruct (validate (Command.args cmd1)).
Qed.


(** Rendering the usage of a node whose flag set is hooked to it. *)
Lemma callFlagSetUsage_eval c σ cmd fs f u :
  cmds σ !! c = Some cmd →
  Command.FlagSet cmd = Some fs →
  Command.UsageFunc cmd = Some u →
  fsets σ !! fs = Some f →
  flag.Usage f = Some (flag.commandUsage c) →
  callFlagSetUsage c σ =
  (Val tt, mkState (cmds σ) (fsets σ) (out σ ++ [PrintUsage fs c u])).
Proof.
  intros Hc Hfs Hu Hf Hhook.
  unfold callFlagSetUsage, bind, getCommand, getFlagSet. rewrite Hc, Hfs, Hf, Hhook.
  cbn. unfold commandUsageClosure, bind, getCommand, getFlagSet.
  by rewrite Hc, Hfs, Hf, Hu.
Qed.

(** *** Parse returns *)

(** With fuel above the length of the argument vector the recursion never
    runs dry: whatever the tree, the run ends by returning, exiting or
    panicking, provided the validators of the tree do. *)
Lemma Parse_fuel_returns fuel :
  ∀ c argv σ, (length argv < fuel)%nat → validatorsReturn σ →
    (Parse_fuel fuel c argv σ).1 ≠ Timeout.
Proof.
  induction fuel as [|fuel IH]; intros c argv σ Hlen Hval; [lia|].
  rewrite Parse_fuel_S. unfold bind at 1. unfold getCommand.
  destruct (cmds σ !! c) as [cmd|] eqn:Hc; [|done].
  destruct (Command.selected cmd); [done|].
  unfold bind at 1.
  destruct (bindFlags c argv σ) as [r σ1] eqn:Hb.
  destruct (wp_intro _ _ _ _ _ Hb (bindFlags_spec c argv σ)) as [Ht Hbound].
  destruct r as [rest| | | |]; try done.
  destruct (Hbound rest eq_refl)
    as (_ & Hrest & cmd' & cmd1 & fs & f1 & Hc' & Hcmds & Hsame & Hargs & _).
  rewrite Hc in Hc'. injection Hc' as <-.
  destruct Hsame as (_ & _ & _ & Hv & _ & _).
  assert (Hc1 : cmds σ1 !! c = Some cmd1) by (rewrite Hcmds; apply lookup_insert_eq).
  unfold bind at 1.
  destruct (selectChild c rest σ1) as [r σ1'] eqn:Hs.
  destruct (wp_intro _ _ _ _ _ Hs (selectChild_spec c rest σ1)) as (-> & Ht' & Hfound).
  destruct r as [[sub|]| | | |]; try done.
  - destruct (Hfound sub eq_refl) as (first & _ & _ & _ & _ & Hhd & _).
    destruct rest as [|? tl]; [done|]. cbn in Hrest.
    unfold bind at 1. unfold setSelected, bind, getCommand, putCommand.
    rewrite Hc1. apply IH; [cbn; lia|].
    intros p cmdp validate args Hp Hvp. cbn in Hp. rewrite Hcmds in Hp.
    destruct (decide (p = c)) as [->|Hne].
    + rewrite lookup_insert_eq in Hp. injection Hp as <-. cbn in Hvp.
      rewrite Hv in Hvp. by eapply Hval.
    + rewrite !lookup_insert_ne in Hp by done. by eapply Hval.
  - rewrite (resolveSelf_eval _ _ _ Hc1). cbn zeta.
    destruct (Command.Exec cmd1); [|done].
    destruct (Command.ArgsValidator cmd1) as [validate|] eqn:Hv1; [|done].
    assert (Hv0 : Command.ArgsValidator cmd = Some validate) by congruence.
    pose proof (Hval c cmd validate (Command.args cmd1) Hc Hv0) as Hret.
    destruct (validate (Command.args cmd1)) as [|err| | |]; try done.
    unfold bind, error_Error.
    match goal with |- context [callFlagSetUsage c ?s] =>
      pose proof (callFlagSetUsage_result c s) as Hu; unfold wp in Hu;
      destruct (callFlagSetUsage c s) as [ru ?] end.
    cbn in Hu. destruct Hu as [-> | ->]; [|done].
    by destruct (errorMessage _ _).
Qed.

Lemma Parse_returns c argv σ :
  validatorsReturn σ → (Parse c argv σ).1 ≠ Timeout.
Proof. intros. apply Parse_fuel_returns; [lia|done]. Qed.

(** ** C4: a terminal node without Exec *)

(** C4.  Whenever [Parse], called on [root], resolves to a terminal node [t]
    whose [Exec] is nil, it returns [NoExecError{Command: t}], the error that
    carries [t] itself, and nothing at all has been printed: no usage was
    rendered for this failure. *)
Theorem Parse_terminal_without_Exec root argv σ t rest σ1 cmd1 :
  resolvesTo root argv σ t rest σ1 →
  cmds σ1 !! t = Some cmd1 →
  Command.Exec cmd1 = None →
  ∃ σ', Parse root argv σ = (Err (NoExecError t), σ') ∧ out σ' = out σ.
Proof.
  intros Hres Hc Hexec.
  destruct (Parse_resolvesTo _ _ _ _ _ _ Hres) as (HP & Ho & _).
  rewrite HP, (resolveSelf_eval _ _ _ Hc). cbn zeta. rewrite Hexec.
  eexists. split; [done|]. done.
Qed.

(** ** C3: a rejected argument list *)


(** ** C10: a failed terminal node stays selected *)

(** C10.  When [Parse] on a node [c] makes [c] itself the terminal node and
    then returns an error (no [Exec], or rejected arguments), [c.selected] is
    [c] all the same.  So a second [Parse] on [c], with any arguments, returns
    nil and changes nothing, and [Run] on [c] goes past the unparsed check to
    lines 124 to 136: it returns [NoExecError] when [Exec] is nil, and it can
    only return [ErrUnparsed] if [c.Exec] itself returns that value. *)
Theorem Parse_failure_keeps_selection c argv σ rest σ1 err σ' :
  resolvesSelf c argv σ rest σ1 →
  Parse c argv σ = (Err err, σ') →
  ∃ cmd',
    cmds σ' !! c = Some cmd' ∧ Command.selected cmd' = Some c ∧
    (∀ argv2, Parse c argv2 σ' = (Val tt, σ')) ∧
    (∀ fuel ctx, Run_fuel (S fuel) c ctx σ' = runSelf c cmd' ctx σ') ∧
    (Command.Exec cmd' = None →
       ∀ fuel ctx, Run_fuel (S fuel) c ctx σ' = (Err (NoExecError c), σ')) ∧
    (∀ fuel ctx, (Run_fuel (S fuel) c ctx σ').1 = Err ErrUnparsed →
       ∃ exec, Command.Exec cmd' = Some exec ∧
               exec ctx (Command.args cmd') = Err ErrUnparsed).
Proof.
  intros Hself HP.
  assert (Hres : resolvesTo c argv σ c rest σ1).
  { exists argv, σ. split; [constructor|done]. }
  destruct (Parse_resolvesTo _ _ _ _ _ _ Hres)
    as (HP' & Ho & cmd1 & fs & f1 & Hc & Hsel & Hargs & Hfs & [u Hu] & Hf1 & Hhook).
  rewrite HP', (resolveSelf_eval _ _ _ Hc) in HP. cbn zeta in HP.
  set (cmd2 := Command.with_selected (Some c) cmd1) in *.
  assert (Hcmds : cmds σ' = <[c := cmd2]> (cmds σ1)).
  { destruct (Command.Exec cmd1); [|by injection HP as _ <-].
    destruct (Command.ArgsValidator cmd1) as [validate|]; [|done].
    destruct (validate (Command.args cmd1)) eqn:Hv; try done.
    unfold bind at 1 in HP.
    erewrite callFlagSetUsage_eval in HP; cbn [cmds fsets out];
      [|apply lookup_insert_eq|exact Hfs|exact Hu|exact Hf1|exact Hhook].
    unfold bind, error_Error in HP. cbn [cmds] in HP.
    destruct (errorMessage _ _); by injection HP as _ <-. }
  assert (Hc' : cmds σ' !! c = Some cmd2) by (rewrite Hcmds; apply lookup_insert_eq).
  assert (Hrun : ∀ fuel ctx, Run_fuel (S fuel) c ctx σ' = runSelf c cmd2 ctx σ').
  { intros fuel ctx. change (Run_fuel (S fuel) c ctx σ') with
      ((let* cmd := getCommand c in
        match Command.selected cmd with
        | None => fail ErrUnparsed
        | Some s => if bool_decide (s = c) then runSelf c cmd ctx
                    else Run_fuel fuel s ctx
        end) σ').
    unfold bind, getCommand. rewrite Hc'. cbn. by rewrite bool_decide_eq_true_2. }
  exists cmd2. split; [done|]. split; [done|]. split; [|split; [done|split]].
  - intros argv2. rewrite Parse_unfold. unfold bind, getCommand. by rewrite Hc'.
  - intros Hex fuel ctx. rewrite Hrun. unfold runSelf. by rewrite Hex.
  - intros fuel ctx. rewrite Hrun. unfold runSelf.
    destruct (Command.Exec cmd2) as [exec|]; [|done].
    intros Hr. exists exec. split; [done|].
    destruct (exec ctx (Command.args cmd2)) as [|e| | |]; try done.
    destruct (errors_Is e ErrHelp || errors_Is e ErrInvalidArguments); cbn in Hr.
    + unfold bind in Hr.
      pose proof (callFlagSetUsage_result c σ') as Hu'. unfold wp in Hu'.
      destruct (callFlagSetUsage c σ') as [r ?]; cbn in Hu'.
      destruct Hu' as [-> | ->]; cbn in Hr; congruence.
    + congruence.
Qed.

(** ** C9: Parse is single-shot *)

(** C9.  Once [c.selected] is set, [Parse] on [c], with any arguments and any
    fuel, returns nil and leaves the whole state as it was: no field of any
    node is written, no flag set is touched, nothing is printed. *)
Theorem Parse_already_selected c argv σ cmd s :
  cmds σ !! c = Some cmd →
  Command.selected cmd = Some s →
  Parse c argv σ = (Val tt, σ) ∧
  ∀ fuel, Parse_fuel (S fuel) c argv σ = (Val tt, σ).
Proof.
  intros Hc Hsel. split; [unfold Parse|intros fuel]; rewrite Parse_fuel_S;
    unfold bind, getCommand; by rewrite Hc, Hsel.
Qed.
End ParseFacts.

(** ** C5: Run before Parse *)

(** C5.  On a node whose [selected] is nil, [Run] returns [ErrUnparsed] at
    once, whatever the node's children, its other fields and the context;
    the state is untouched. *)
Theorem Run_unparsed fuel c ctx σ cmd :
  cmds σ !! c = Some cmd →
  Command.selected cmd = None →
  Run_fuel (S fuel) c ctx σ = (Err ErrUnparsed, σ).
Proof.
  intros Hc Hsel.
  change (Run_fuel (S fuel) c ctx σ) with
    ((let* cmd := getCommand c in
      match Command.selected cmd with
      | None => fail ErrUnparsed
      | Some s => if bool_decide (s = c) then runSelf c cmd ctx
                  else Run_fuel fuel s ctx
      end) σ).
  unfold bind, getCommand. by rewrite Hc, Hsel.
Qed.

(** ** C8: CombineValidator *)

(** C8.  When the validators [pre] all accept [args] and the next one, [v],
    rejects them with [err], the combined validator returns exactly [err],
    whatever validators [post] follow (they are not run); and the
    combination of validators that all accept returns nil. *)
Theorem CombineValidator_first_failure pre v post args err :
  Forall (λ u, call u args = Val tt) pre →
  call v args = Err err →
  call (CombineValidator (pre ++ v :: post)) args = Err err ∧
  call (CombineValidator pre) args = Val tt.
Proof.
  intros Hpre Hv. cbn [call CombineValidator].
  induction Hpre as [|u pre Hu _ [IH1 IH2]]; cbn [app combineLoop].
  - by rewrite Hv.
  - by rewrite Hu.
Qed.

(** ** C1: failures of the flag binder *)

Section Binder.
Context `{GoStdlib}.







End Binder.

(** ** C7: which child a token selects *)

Lemma lor_lt_RuneSelf a b :
  (N.lor a b < RuneSelf ↔ a < RuneSelf ∧ b < RuneSelf)%N.
Proof.
  unfold RuneSelf. change 128%N with (2^7)%N.
  destruct (N.eq_dec a 0%N) as [->|Ha]; [rewrite N.lor_0_l; lia|].
  destruct (N.eq_dec b 0%N) as [->|Hb]; [rewrite N.lor_0_r; lia|].
  assert (N.lor a b ≠ 0)%N by (intros ?%N.lor_eq_0_iff; lia).
  rewrite !N.log2_lt_pow2 by lia. rewrite N.log2_lor. lia.
Qed.

Lemma lowerByte_eq a b :
  lowerByte a = lowerByte b ↔
  a = b ∨ ((65 ≤ N.min a b)%N ∧ (N.min a b ≤ 90)%N ∧ N.max a b = (N.min a b + 32)%N).
Proof.
  unfold lowerByte.
  destruct (N.leb_spec 65 a), (N.leb_spec a 90), (N.leb_spec 65 b),
    (N.leb_spec b 90); cbn; lia.
Qed.

(** [Name] cuts [Usage] at its first space. *)
Lemma index_space (s : string) :
  match index 0 " " s with
  | Some i =>
      (∀ j, String.get j (substring 0 i s) ≠ Some " "%char) ∧
      ∃ rest, s = substring 0 i s +:+ " " +:+ rest
  | None => ∀ j, String.get j s ≠ Some " "%char
  end.
Proof.
  induction s as [|a s IH]; cbn [index String.prefix]; [by intros ?|].
  destruct (ascii_dec " " a) as [<-|Hne]; cbn [String.prefix].
  - clear IH. destruct s; cbn [String.prefix substring];
      (split; [by intros ?|by eexists]).
  - destruct (index 0 " " s) as [i|]; cbn [substring].
    + destruct IH as [IHno [rest IHsplit]]. split.
      * intros [|j]; cbn [String.get]; [by intros [= ->]|apply IHno].
      * exists rest.
        change (String a s = String a (substring 0 i s +:+ " " +:+ rest)).
        by f_equal.
    + intros [|j]; cbn [String.get]; [by intros [= ->]|apply IH].
Qed.

Lemma Name_cut (c : Command.t) :
  (∀ i, String.get i (Name c) ≠ Some " "%char) ∧
  (Command.Usage c = Name c ∨
   ∃ rest, Command.Usage c = Name c +:+ " " +:+ rest).
Proof.
  unfold Name, sliceTo. pose proof (index_space (Command.Usage c)) as Hidx.
  destruct (index 0 " " (Command.Usage c)) as [i|].
  - destruct Hidx as [Hno Hsplit]. split; [done|by right].
  - split; [done|by left].
Qed.

Lemma index_first_space (name rest : string) :
  (∀ i, String.get i name ≠ Some " "%char) →
  index 0 " " name = None ∧
  index 0 " " (name +:+ " " +:+ rest) = Some (String.length name) ∧
  substring 0 (String.length name) (name +:+ " " +:+ rest) = name.
Proof.
  induction name as [|a name IH]; intros Hno.
  - split; [done|]. destruct rest; done.
  - assert (Ha : " "%char ≠ a) by (intros <-; by apply (Hno 0%nat)).
    destruct IH as (IH1 & IH2 & IH3); [intros i; apply (Hno (S i))|].
    change (String a name +:+ " " +:+ rest) with (String a (name +:+ " " +:+ rest)).
    cbn [index String.prefix String.length substring].
    destruct (ascii_dec " " a) as [|_]; [done|].
    rewrite IH1, IH2, IH3. done.
Qed.

(** The name is the only such first part of [Usage]. *)
Lemma Name_of_usage (c : Command.t) (name rest : string) :
  (∀ i, String.get i name ≠ Some " "%char) →
  Command.Usage c = name ∨ Command.Usage c = name +:+ " " +:+ rest →
  Name c = name.
Proof.
  intros Hno Husage. destruct (index_first_space name rest Hno) as (H1 & H2 & H3).
  unfold Name, sliceTo. destruct Husage as [-> | ->].
  - by rewrite H1.
  - by rewrite H2.
Qed.

Section Selection.
Context `{GoStdlib}.

(** On ASCII strings [EqualFold] is equality up to the case of letters. *)
Lemma EqualFold_ascii s : ∀ t,
  isASCII s = true → isASCII t = true →
  (EqualFold s t = true ↔ lowerBytes s = lowerBytes t).
Proof.
  induction s as [|sr s IH]; intros [|tr t]; cbn [isASCII EqualFold lowerBytes];
    try done.
  intros [Hs Hs']%andb_prop [Ht Ht']%andb_prop.
  apply N.ltb_lt in Hs, Ht.
  destruct (N.leb_spec RuneSelf (N.lor (byte sr) (byte tr))) as [Hge|Hlt].
  { pose proof (proj2 (lor_lt_RuneSelf (byte sr) (byte tr)) (conj Hs Ht)). lia. }
  destruct (N.eqb_spec (byte tr) (byte sr)) as [Heq|Hne].
  { rewrite (IH t Hs' Ht'), Heq. split; [by intros ->|by intros [= ?]]. }
  change (byte "A") with 65%N. change (byte "Z") with 90%N.
  change (byte "a") with 97%N.
  destruct (N.leb_spec 65 (N.min (byte sr) (byte tr))) as [H65|H65]; cbn [andb].
  2:{ split; [done|]. intros [= Hl%lowerByte_eq _]. lia. }
  destruct (N.leb_spec (N.min (byte sr) (byte tr)) 90) as [H90|H90]; cbn [andb].
  2:{ split; [done|]. intros [= Hl%lowerByte_eq _]. lia. }
  destruct (N.eqb_spec (N.max (byte sr) (byte tr))
              (N.min (byte sr) (byte tr) + 97 - 65)) as [Hmax|Hmax].
  - rewrite (IH t Hs' Ht'). split.
    + intros ->. f_equal. apply lowerByte_eq. lia.
    + by intros [= _ ?].
  - split; [done|]. intros [= Hl%lowerByte_eq _]. lia.
Qed.

Lemma anyEqualFold_Exists tok aliases :
  anyEqualFold tok aliases = true ↔ Exists (λ s, EqualFold tok s = true) aliases.
Proof.
  induction aliases as [|s aliases IH]; cbn [anyEqualFold].
  - split; [done|]. by intros ?%Exists_nil.
  - rewrite Exists_cons, <- IH. destruct (EqualFold tok s); intuition congruence.
Qed.

Lemma selectedBy_answersTo child tok :
  selectedBy child tok = true ↔ answersTo child tok.
Proof.
  unfold selectedBy, answersTo. by rewrite anyEqualFold_Exists, Exists_cons.
Qed.

Lemma passedOver_notSelecting σ tok q :
  passedOver σ tok q → notSelecting σ tok q.
Proof.
  intros (l & child & -> & Hl & Hno). exists l, child. repeat split; [done|].
  destruct (selectedBy child tok) eqn:Hs; [|done].
  by apply selectedBy_answersTo in Hs.
Qed.

(** C7.  Let [Parse] bind the flags of an unparsed node [c] and leave the
    positional arguments [first :: tl].  If [sub] is the first child in
    [c.Subcommands] that answers to [first] (every child before it is a node
    that does not; children after it may answer too), then [Parse] sets
    [c.selected] to [sub] and continues as [sub.Parse(tl)].  A child answers
    to a token when [strings.EqualFold] holds between the token and the
    child's name or one of its aliases; on ASCII strings that is equality up
    to the case of letters.  The name of a child is the first word of its
    [Usage]: it holds no space, [Usage] is the name alone or the name, a
    space and more, and it is the only string of which that is true.  So a
    child with the name [sub], whatever follows the name in its [Usage], and
    the alias [foobar] answers to [sub], [SUB], [foobar] and [FOOBAR], and
    neither to a part of its name, nor to more than its name, nor to its
    whole [Usage] when that is more than the name. *)
Theorem Parse_selects_first_answering_child
    c argv σ cmd first tl σ1 cmd1 pre sub post child :
  cmds σ !! c = Some cmd →
  Command.selected cmd = None →
  bindFlags c argv σ = (Val (first :: tl), σ1) →
  cmds σ1 !! c = Some cmd1 →
  Command.Subcommands cmd1 = pre ++ Some sub :: post →
  Forall (passedOver σ1 first) pre →
  cmds σ1 !! sub = Some child →
  answersTo child first →
  (let σ2 := mkState (<[c := Command.with_selected (Some sub) cmd1]> (cmds σ1))
                     (fsets σ1) (out σ1) in
   Parse c argv σ = Parse sub tl σ2) ∧
  (∀ ch tok, selectedBy ch tok = true ↔
             EqualFold tok (Name ch) = true ∨
             Exists (λ alias, EqualFold tok alias = true) (Command.Aliases ch)) ∧
  (∀ s t, isASCII s = true → isASCII t = true →
          (EqualFold s t = true ↔ lowerBytes s = lowerBytes t)) ∧
  (∀ ch, (∀ i, String.get i (Name ch) ≠ Some " "%char) ∧
         (Command.Usage ch = Name ch ∨
          ∃ rest, Command.Usage ch = Name ch +:+ " " +:+ rest)) ∧
  (∀ ch name rest,
     (∀ i, String.get i name ≠ Some " "%char) →
     Command.Usage ch = name ∨ Command.Usage ch = name +:+ " " +:+ rest →
     Name ch = name) ∧
  (∀ ch rest,
     Command.Usage ch = "sub" ∨ Command.Usage ch = "sub " +:+ rest →
     Command.Aliases ch = ["foobar"] →
     Name ch = "sub" ∧
     selectedBy ch "sub" = true ∧ selectedBy ch "SUB" = true ∧
     selectedBy ch "foobar" = true ∧ selectedBy ch "FOOBAR" = true ∧
     selectedBy ch "su" = false ∧ selectedBy ch "subs" = false ∧
     selectedBy ch "sub <file>" = false).
Proof.
  intros Hc Hsel Hb Hc1 Hsubs Hpre Hsub Hans.
  split; [|split; [|split; [|split; [|split]]]].
  - cbn zeta. change tl with (tail (first :: tl)).
    eapply Parse_child; [done..| |].
    + cbn [selectChild]. unfold bind, getCommand. rewrite Hc1, Hsubs.
      apply (findSubcommand_first _ _ _ child); [|done|by apply selectedBy_answersTo].
      eapply Forall_impl; [done|]. apply passedOver_notSelecting.
    + unfold setSelected, bind, getCommand. by rewrite Hc1.
  - apply selectedBy_answersTo.
  - intros s t. apply EqualFold_ascii.
  - apply Name_cut.
  - apply Name_of_usage.
  - intros ch rest Hu Ha.
    assert (Hname : Name ch = "sub").
    { apply (Name_of_usage ch "sub" rest); [|done].
      intros [|[|[|[|i]]]]; by cbn. }
    split; [done|]. unfold selectedBy. rewrite Hname, Ha. by vm_compute.
Qed.
End Selection.

(** ** C2: the chain of selections *)

Lemma selChain_unique σ p path :
  selChain σ p path → ∀ path', selChain σ p path' → path' = path.
Proof.
  induction 1 as [p cmd Hp Hsel|p cmd q path Hp Hsel Hne Hin _ IH];
    intros path' Hpath'; inversion Hpath'; simplify_eq; try done.
  f_equal. by apply IH.
Qed.

(** Acyclicity is a matter of the [Subcommands] fields alone. *)
Lemma acyclic_ext rk σ σ' :
  Command.Subcommands <$> cmds σ' = Command.Subcommands <$> cmds σ →
  acyclic rk σ → acyclic rk σ'.
Proof.
  intros Heq Hacyc p cmd q Hp Hq.
  assert (Hs : (Command.Subcommands <$> cmds σ) !! p = Some (Command.Subcommands cmd))
    by (by rewrite <- Heq, lookup_fmap, Hp).
  rewrite lookup_fmap in Hs.
  destruct (cmds σ !! p) as [cmd0|] eqn:Hp0; [|done].
  injection Hs as Hs. eapply Hacyc; [done|]. by rewrite Hs.
Qed.

Section Chain.
Context `{GoStdlib}.

Lemma resolveSelf_Val c σ1 cmd1 σ' :
  cmds σ1 !! c = Some cmd1 →
  resolveSelf c σ1 = (Val tt, σ') →
  σ' = mkState (<[c := Command.with_selected (Some c) cmd1]> (cmds σ1))
               (fsets σ1) (out σ1).
Proof.
  intros Hc. rewrite (resolveSelf_eval _ _ _ Hc). cbn zeta.
  destruct (Command.Exec cmd1); [|done].
  destruct (Command.ArgsValidator cmd1) as [validate|]; [|by intros [= <-]].
  destruct (validate (Command.args cmd1)) as [[]|err| | |]; try done;
    [by intros [= <-]|].
  unfold bind, error_Error.
  match goal with |- context [callFlagSetUsage c ?s] =>
    destruct (callFlagSetUsage c s) as [[] ?]; try done end.
  by destruct (errorMessage _ _).
Qed.

Lemma Parse_fuel_chain rk fuel :
  ∀ c argv σ σ',
    acyclic rk σ →
    (∀ p cmd, cmds σ !! p = Some cmd → (rk p ≤ rk c)%nat →
              Command.selected cmd = None) →
    Parse_fuel fuel c argv σ = (Val tt, σ') →
    (∃ path, selChain σ' c path) ∧
    (∀ p, (rk c < rk p)%nat → cmds σ' !! p = cmds σ !! p).
Proof.
  induction fuel as [|fuel IH]; intros c argv σ σ' Hacyc Hfresh HP; [done|].
  rewrite Parse_fuel_S in HP. unfold bind at 1 in HP. unfold getCommand in HP.
  destruct (cmds σ !! c) as [cmd|] eqn:Hc; [|done].
  rewrite (Hfresh c cmd Hc) in HP by lia.
  unfold bind at 1 in HP.
  destruct (bindFlags c argv σ) as [[rest| | | |] σ1] eqn:Hb; try done.
  destruct (bindFlags_Val _ _ _ _ _ Hb)
    as (_ & _ & cmd' & cmd1 & fs & f1 & Hc' & Hcmds & Hsame & _).
  rewrite Hc in Hc'. injection Hc' as <-.
  destruct Hsame as (_ & _ & Hsubs & _ & _ & _).
  assert (Hc1 : cmds σ1 !! c = Some cmd1) by (rewrite Hcmds; apply lookup_insert_eq).
  unfold bind at 1 in HP.
  destruct (selectChild c rest σ1) as [r σ1'] eqn:Hs.
  destruct (wp_intro _ _ _ _ _ Hs (selectChild_spec c rest σ1)) as (-> & _ & Hfound).
  destruct r as [[sub|]| | | |]; try done.
  - destruct (Hfound sub eq_refl)
      as (first & cmd1' & pre & post & child & _ & Hc1' & Hdec & _ & Hsub & _).
    rewrite Hc1 in Hc1'. injection Hc1' as <-.
    assert (Hin : Some sub ∈ Command.Subcommands cmd).
    { rewrite <- Hsubs, Hdec. apply elem_of_app. right. apply elem_of_cons. by left. }
    assert (Hrk : (rk sub < rk c)%nat) by (by eapply Hacyc).
    unfold bind at 1 in HP. unfold setSelected, bind, getCommand, putCommand in HP.
    rewrite Hc1 in HP.
    set (cmd2 := Command.with_selected (Some sub) cmd1) in *.
    set (σ2 := mkState (<[c := cmd2]> (cmds σ1)) (fsets σ1) (out σ1)) in *.
    assert (Hother : ∀ p, p ≠ c → cmds σ2 !! p = cmds σ !! p).
    { intros p Hp. cbn. rewrite Hcmds. by rewrite !lookup_insert_ne. }
    assert (Hc2 : cmds σ2 !! c = Some cmd2) by apply lookup_insert_eq.
    destruct (IH sub (tail rest) σ2 σ') as [[path Hpath] Hframe]; [| |done|].
    + intros p cmdp q Hp Hq. destruct (decide (p = c)) as [->|Hne].
      * rewrite Hc2 in Hp. injection Hp as <-. cbn in Hq. rewrite Hsubs in Hq.
        by eapply Hacyc.
      * rewrite Hother in Hp by done. by eapply Hacyc.
    + intros p cmdp Hp Hle. destruct (decide (p = c)) as [->|Hne]; [lia|].
      rewrite Hother in Hp by done. eapply Hfresh; [done|lia].
    + split.
      * exists (c :: path). apply (selChain_next _ c cmd2 sub); try done.
        -- by rewrite Hframe.
        -- intros ->. lia.
        -- cbn. by rewrite Hsubs.
      * intros p Hp. rewrite Hframe by lia. apply Hother. intros ->. lia.
  - rewrite (resolveSelf_Val _ _ _ _ Hc1 HP). split.
    + exists [c]. apply (selChain_end _ c (Command.with_selected (Some c) cmd1));
        [apply lookup_insert_eq|done].
    + intros p Hp. cbn. rewrite Hcmds, !lookup_insert_ne; [done|intros ->; lia..].
Qed.

(** C2 (as amended).  Take a command tree on which [Parse] has not run:
    the children relation has no cycle and every node's [selected] is nil.
    If [Parse] called on the root returns nil, then from the root there is
    exactly one chain of nodes in which each node's [selected] is the next
    node, a child listed in its [Subcommands], and whose last node's
    [selected] is that node itself. *)
Theorem Parse_success_selects_chain rk root argv σ σ' :
  acyclic rk σ →
  unparsed σ →
  Parse root argv σ = (Val tt, σ') →
  ∃ path, selChain σ' root path ∧ ∀ path', selChain σ' root path' → path' = path.
Proof.
  intros Hacyc Hfresh HP.
  destruct (Parse_fuel_chain rk _ _ _ _ _ Hacyc (λ p cmd Hp _, Hfresh p cmd Hp) HP)
    as [[path Hpath] _].
  exists path. split; [done|]. by apply selChain_unique.
Qed.

(** ** C6: OnlyValidArgs with nothing allowed *)

(** C6 (as amended).  [OnlyValidArgs] of an empty list is the nil validator:
    no function is built.  A terminal node that has an [Exec] and this value
    as its [ArgsValidator] is never rejected: whatever positional arguments
    remain, [Parse] skips validation, returns nil and prints nothing. *)
Theorem OnlyValidArgs_empty_is_no_validator root argv σ t rest σ1 cmd1 exec :
  resolvesTo root argv σ t rest σ1 →
  cmds σ1 !! t = Some cmd1 →
  Command.Exec cmd1 = Some exec →
  Command.ArgsValidator cmd1 = OnlyValidArgs [] →
  OnlyValidArgs [] = None ∧
  ∃ σ', Parse root argv σ = (Val tt, σ') ∧ out σ' = out σ.
Proof.
  intros Hres Hc Hexec Hval. split; [done|].
  destruct (Parse_resolvesTo _ _ _ _ _ _ Hres) as (HP & Ho & _).
  rewrite HP, (resolveSelf_eval _ _ _ Hc). cbn zeta. rewrite Hexec, Hval.
  by eexists.
Qed.
End Chain.


(** * Further properties of the code *)

(** ** args.go: the counting validators *)

(** Which argument lists each counting validator accepts. *)
Lemma counting_validators_accept n min max args :
  (accepts (Some NoArgs) args ↔ args = []) ∧
  (accepts (MinArgs n) args ↔ (n ≤ len args)%Z) ∧
  (accepts (MaxArgs n) args ↔ (len args ≤ n)%Z) ∧
  (accepts (ExactArgs n) args ↔ len args = n) ∧
  (accepts (RangeArgs min max) args ↔ (min ≤ len args ≤ max)%Z).
Proof.
  unfold accepts, len. cbn [call NoArgs MinArgs MaxArgs ExactArgs RangeArgs].
  unfold NoArgs, len. repeat split.
  + destruct args; [done|]. cbn [length]. by destruct (Z.ltb_spec 0 (Z.of_nat (S (length args)))); [|lia].
  + intros ->. done.
  + destruct (Z.ltb_spec (Z.of_nat (length args)) n); [done|lia].
  + destruct (Z.ltb_spec (Z.of_nat (length args)) n); [lia|done].
  + destruct (Z.ltb_spec n (Z.of_nat (length args))); [done|lia].
  + destruct (Z.ltb_spec n (Z.of_nat (length args))); [lia|done].
  + destruct (Z.eqb_spec (Z.of_nat (length args)) n); [done|done].
  + destruct (Z.eqb_spec (Z.of_nat (length args)) n); [done|lia].
  + destruct (Z.ltb_spec (Z.of_nat (length args)) min); [done|lia].
  + destruct (Z.ltb_spec (Z.of_nat (length args)) min),
      (Z.ltb_spec max (Z.of_nat (length args))); cbn; try done; lia.
  + destruct (Z.ltb_spec (Z.of_nat (length args)) min),
      (Z.ltb_spec max (Z.of_nat (length args))); cbn; try done; lia.
Qed.

(** X1.  The bounds of the counting validators are inclusive: [NoArgs]
    accepts exactly the empty list, [MinArgs(n)] exactly the lists of at
    least [n] arguments, [MaxArgs(n)] of at most [n], [ExactArgs(n)] of
    exactly [n], [RangeArgs(min, max)] of between [min] and [max]; and every
    one of them returns, with nil or with a plain error, whatever the list
    and the bounds (bounds may be negative or crossed). *)
Theorem counting_validators_bounds n min max args :
  ((accepts (Some NoArgs) args ↔ args = []) ∧
   (accepts (MinArgs n) args ↔ (n ≤ len args)%Z) ∧
   (accepts (MaxArgs n) args ↔ (len args ≤ n)%Z) ∧
   (accepts (ExactArgs n) args ↔ len args = n) ∧
   (accepts (RangeArgs min max) args ↔ (min ≤ len args ≤ max)%Z)) ∧
  (returnsPlainly (call (Some NoArgs) args) ∧
   returnsPlainly (call (MinArgs n) args) ∧
   returnsPlainly (call (MaxArgs n) args) ∧
   returnsPlainly (call (ExactArgs n) args) ∧
   returnsPlainly (call (RangeArgs min max) args)).
Proof.
  split; [apply counting_validators_accept|].
  unfold returnsPlainly. cbn [call NoArgs MinArgs MaxArgs ExactArgs RangeArgs].
  unfold NoArgs. repeat split; repeat case_match; eauto.
Qed.

(** X2.  The counting validators are instances of one another as far as
    acceptance goes: [RangeArgs(min, max)] accepts what
    [CombineValidator(MinArgs(min), MaxArgs(max))] accepts, [ExactArgs(n)]
    what [RangeArgs(n, n)] accepts, and [NoArgs] what [ExactArgs(0)] and
    [MaxArgs(0)] accept. *)
Theorem counting_validators_agree n min max args :
  (accepts (RangeArgs min max) args ↔
   accepts (CombineValidator [MinArgs min; MaxArgs max]) args) ∧
  (accepts (ExactArgs n) args ↔ accepts (RangeArgs n n) args) ∧
  (accepts (Some NoArgs) args ↔ accepts (ExactArgs 0) args) ∧
  (accepts (Some NoArgs) args ↔ accepts (MaxArgs 0) args).
Proof.
  destruct (counting_validators_accept 0 0 0 args) as (Hno & _ & Hmax0 & Hex0 & _).
  destruct (counting_validators_accept n n n args) as (_ & _ & _ & Hex & Hrange).
  destruct (counting_validators_accept min min max args) as (_ & Hmin & _ & _ & Hr).
  destruct (counting_validators_accept max min max args) as (_ & _ & Hmax & _ & _).
  repeat split.
  - intros [H1 H2]%Hr. unfold accepts. cbn [call CombineValidator combineLoop].
    apply Hmin in H1. apply Hmax in H2. unfold accepts in H1, H2.
    by rewrite H1, H2.
  - unfold accepts at 1. cbn [call CombineValidator combineLoop]. intros Hc.
    apply Hr. split.
    + apply Hmin. unfold accepts. by destruct (call (MinArgs min) args) as [[]| | | |].
    + apply Hmax. unfold accepts. destruct (call (MinArgs min) args); try done.
      by destruct (call (MaxArgs max) args) as [[]| | | |].
  - intros ?%Hex. apply Hrange. lia.
  - intros ?%Hrange. apply Hex. lia.
  - intros ->%Hno. by apply Hex0.
  - intros ?%Hex0. apply Hno. destruct args; [done|]. unfold len in *. cbn in *. lia.
  - intros ->%Hno. by apply Hmax0.
  - intros ?%Hmax0. apply Hno. destruct args; [done|]. unfold len in *. cbn in *. lia.
Qed.

(** ** args.go: OnlyValidArgs *)

Lemma makeValidSet_elem_of validArgs arg :
  arg ∈ makeValidSet validArgs ↔ arg ∈ validArgs.
Proof.
  unfold makeValidSet.
  assert (Hgen : ∀ acc : gset string,
            arg ∈ foldl (λ validSet a, {[a]} ∪ validSet) acc validArgs ↔
            arg ∈ acc ∨ arg ∈ validArgs).
  { induction validArgs as [|a validArgs IH]; intros acc; cbn [foldl].
    - rewrite elem_of_nil. tauto.
    - rewrite IH, elem_of_union, elem_of_singleton, elem_of_cons. tauto. }
  rewrite Hgen, elem_of_empty. tauto.
Qed.

(** X3.  For a non-empty list of valid arguments, [OnlyValidArgs] accepts
    exactly the argument lists all of whose elements occur in it (order and
    repetition in either list do not matter); and when it rejects, the error
    names the first argument, from the left, that does not occur, after the
    valid ones joined by commas. *)
Theorem OnlyValidArgs_accepts_members validArgs args :
  validArgs ≠ [] →
  (accepts (OnlyValidArgs validArgs) args ↔ Forall (λ arg, arg ∈ validArgs) args) ∧
  (∀ pre bad post,
     args = pre ++ bad :: post →
     Forall (λ arg, arg ∈ validArgs) pre →
     bad ∉ validArgs →
     call (OnlyValidArgs validArgs) args =
     Err (errorString ("requires valid arugmenets of "
                       +:+ String.concat ", " validArgs
                       +:+ ", received " +:+ bad))).
Proof.
  intros Hne. unfold accepts, OnlyValidArgs.
  assert (Hlen : (len validArgs =? 0)%Z = false).
  { destruct validArgs; [done|]. unfold len. cbn [length]. apply Z.eqb_neq. lia. }
  rewrite Hlen. cbn [call]. split.
  - induction args as [|arg args IH]; cbn [onlyValidLoop].
    + split; [by constructor|done].
    + case_bool_decide as Hin; rewrite makeValidSet_elem_of in Hin.
      * rewrite IH. split; [by constructor|]. by intros [_ ?]%Forall_cons.
      * split; [done|]. by intros [? _]%Forall_cons.
  - intros pre bad post -> Hpre Hbad.
    induction Hpre as [|arg pre Harg _ IH]; cbn [app onlyValidLoop].
    + rewrite bool_decide_eq_false_2; [done|]. by rewrite makeValidSet_elem_of.
    + rewrite bool_decide_eq_true_2; [done|]. by rewrite makeValidSet_elem_of.
Qed.

(** ** args.go: CombineValidator *)

(** X4.  Combination is flat: combining two combinations gives, on every
    argument list, the outcome of combining all the validators in one list,
    in the same order; and combining no validator accepts everything. *)
Theorem CombineValidator_flat vs1 vs2 args :
  call (CombineValidator [CombineValidator vs1; CombineValidator vs2]) args =
  call (CombineValidator (vs1 ++ vs2)) args ∧
  accepts (CombineValidator []) args.
Proof.
  split; [|done]. cbn [call CombineValidator combineLoop].
  induction vs1 as [|v vs1 IH]; cbn [app combineLoop].
  - by destruct (combineLoop vs2 args) as [[]| | | |].
  - by destruct (call v args).
Qed.

(** ** scli.go: Name *)

(** X5.  The name of a command is the part of its [Usage] before the first
    space: it holds no space, and [Usage] is either the name alone or the
    name, a space, and more.  (A [Usage] that begins with a space gives the
    empty name.) *)
Theorem Name_is_first_word (c : Command.t) :
  (∀ i, String.get i (Name c) ≠ Some " "%char) ∧
  (Command.Usage c = Name c ∨
   ∃ rest, Command.Usage c = Name c +:+ " " +:+ rest).
Proof.
  unfold Name, sliceTo. pose proof (index_space (Command.Usage c)) as Hidx.
  destruct (index 0 " " (Command.Usage c)) as [i|].
  - destruct Hidx as [Hno Hsplit]. split; [done|by right].
  - split; [done|by left].
Qed.

(** ** scli.go: Parse and the positional arguments *)

Section Positional.
Context `{GoStdlib}.

Lemma FlagSet_parseOne_suffix fs σ :
  wp (FlagSet_parseOne fs)
     (λ r σ', ∀ b, r = Val b →
        ∃ f f' : flag.FlagSet,
          fsets σ !! fs = Some f ∧ fsets σ' !! fs = Some f' ∧
          flag.args f' `suffix_of` flag.args f) σ.
Proof.
  unfold FlagSet_parseOne.
  repeat (first [wp_step | progress cbn beta iota | case_match]).
  all: try (eapply wp_mono; [apply FlagSet_failf_result|]; cbn;
            by intros r σ' [-> | ->]).
  all: try (eapply wp_mono; [apply FlagSet_usage_result|]; cbn;
            intros r σ' [-> | ->]; cbn; [wp_steps|]; by intros ? [=]).
  all: let seen := fresh in intros seen [= <-].
  all: eexists _, _; (split; [done|]); cbn.
  all: rewrite ?lookup_insert_eq; (split; [done|]); cbn.
  all: simplify_eq/=.
  all: repeat match goal with E : flag.args _ = _ |- _ => rewrite E end.
  all: try done.
  all: try by apply suffix_cons_r.
  all: by do 2 apply suffix_cons_r.
Qed.

Lemma FlagSet_parseLoop_suffix fuel fs : ∀ σ,
  wp (FlagSet_parseLoop fuel fs)
     (λ r σ', r = Val tt →
        ∃ f f' : flag.FlagSet,
          fsets σ !! fs = Some f ∧ fsets σ' !! fs = Some f' ∧
          flag.args f' `suffix_of` flag.args f) σ.
Proof.
  induction fuel as [|fuel IH]; intros σ; [done|].
  apply wp_parseLoop_S.
  eapply wp_mono; [apply FlagSet_parseOne_suffix|].
  intros r σ' Hone. destruct r as [[]|err| | |]; try done.
  - destruct (Hone true eq_refl) as (f & f1 & Hf & Hf1 & Hsuf).
    eapply wp_mono; [apply IH|]. intros r σ'' Hloop ->.
    destruct (Hloop eq_refl) as (g & f2 & Hg & Hf2 & Hsuf2).
    exists f, f2. simplify_eq. repeat split; [done..|]. by etrans.
  - intros _. apply (Hone false eq_refl).
  - destruct (fsets σ' !! fs) as [f|]; [|done].
    destruct (flag.errorHandling f); [done| |done]. by case_bool_decide.
Qed.

Lemma FlagSet_Parse_suffix fs argv σ :
  wp (FlagSet_Parse fs argv)
     (λ r σ', r = Val tt →
        ∃ f' : flag.FlagSet,
          fsets σ' !! fs = Some f' ∧ flag.args f' `suffix_of` argv) σ.
Proof.
  unfold FlagSet_Parse. wp_steps.
  destruct (fsets σ !! fs) as [f|]; cbn; [|done].
  wp_steps. eapply wp_mono; [apply FlagSet_parseLoop_suffix|].
  intros r σ' Hloop ->. destruct (Hloop eq_refl) as (g & f' & Hg & Hf' & Hsuf).
  cbn in Hg. rewrite lookup_insert_eq in Hg. injection Hg as <-.
  by exists f'.
Qed.

(** The remainder that the flag binding stores is what is left of the
    argument vector when some arguments have been taken from its front. *)
Lemma bindFlags_suffix c argv σ rest σ1 :
  bindFlags c argv σ = (Val rest, σ1) → rest `suffix_of` argv.
Proof.
  intros Hb.
  apply (wp_intro _ (λ r _, ∀ rest, r = Val rest → rest `suffix_of` argv) _ _ _ Hb);
    [|done].
  unfold bindFlags. apply wp_bind.
  apply wp_elim. intros [fs| | | |] σ0 _; try done.
  apply wp_bind. eapply wp_mono; [apply FlagSet_Parse_suffix|].
  intros [[]| | | |] σ' Hp; try done.
  destruct (Hp eq_refl) as (f' & Hf' & Hsuf).
  unfold FlagSet_Args. wp_steps. rewrite Hf'. wp_steps.
  destruct (cmds σ' !! c); [|done]. wp_steps. by intros ? [= <-].
Qed.

Lemma descends_suffix c argv σ t argv' σ' :
  descends c argv σ t argv' σ' → argv' `suffix_of` argv.
Proof.
  induction 1 as [|c argv σ cmd rest σ1 sub σ2 t argv' σ' _ _ Hb _ _ _ IH]; [done|].
  etrans; [exact IH|]. etrans; [|by eapply bindFlags_suffix].
  destruct rest; [done|]. by apply suffix_cons_r.
Qed.

(** X6.  However deep [Parse] goes, the positional arguments it leaves at
    the terminal node, in the node's [args], are a suffix of the argument
    vector it was called with: arguments are only ever taken from the front,
    never reordered, changed or invented. *)
Theorem positional_arguments_are_a_suffix root argv σ t rest σ1 :
  resolvesTo root argv σ t rest σ1 →
  rest `suffix_of` argv ∧
  ∃ cmd1, cmds σ1 !! t = Some cmd1 ∧ Command.args cmd1 = rest.
Proof.
  intros Hres.
  destruct (Parse_resolvesTo _ _ _ _ _ _ Hres)
    as (_ & _ & cmd1 & fs & f1 & Hc & _ & Hargs & _).
  destruct Hres as (argv' & σt & Hd & _ & Hb & _).
  split; [|by exists cmd1].
  etrans; [by eapply bindFlags_suffix|by eapply descends_suffix].
Qed.
End Positional.

(** ** scli.go: Parse, where flag binding stops *)

Section Stops.
Context `{GoStdlib}.

(** The flag set leaves untouched an argument vector that is empty or
    begins with a token that is not a flag, and takes exactly the
    terminator off one that begins with it. *)
Lemma FlagSet_Parse_stops fs argv rest σ f :
  fsets σ !! fs = Some f →
  (argv = rest ∧ (rest = [] ∨ ∃ first tl, rest = first :: tl ∧ notFlag first)) ∨
  argv = "--" :: rest →
  wp (FlagSet_Parse fs argv)
     (λ r σ', r = Val tt ∧ cmds σ' = cmds σ ∧ out σ' = out σ ∧
        ∃ f', fsets σ' !! fs = Some f' ∧ flag.args f' = rest) σ.
Proof.
  intros Hf Hargv. unfold FlagSet_Parse. wp_steps. rewrite Hf. wp_steps.
  apply wp_parseLoop_S. unfold FlagSet_parseOne. wp_steps.
  rewrite lookup_insert_eq.
  destruct Hargv as [[-> [-> | (first & tl & -> & Hno)]] | ->];
    cbn -[lookup insert bool_decide String.length Nat.ltb String.get].
  - wp_steps. repeat split; [done..|]. eexists. by rewrite lookup_insert_eq.
  - assert (Hb : (String.length first <? 2)%nat
                 || negb (bool_decide (String.get 0 first = Some "-"%char)) = true).
    { destruct Hno as [Hlen | Hget].
      - apply orb_true_intro. left. by apply Nat.ltb_lt.
      - apply orb_true_intro. right. by rewrite bool_decide_eq_false_2. }
    rewrite Hb. wp_steps. repeat split; [done..|].
    eexists. by rewrite lookup_insert_eq.
  - rewrite !(bool_decide_eq_true_2 (Some "-"%char = Some "-"%char)) by done.
    cbn -[lookup insert]. wp_steps. repeat split; [done..|].
    eexists. by rewrite lookup_insert_eq.
Qed.

Lemma prepareFlagSet_runs c σ cmd :
  cmds σ !! c = Some cmd →
  flagSetsAllocated σ →
  wp (prepareFlagSet c) (λ r σ0, ∃ fs, r = Val fs ∧ prepared c σ fs σ0) σ.
Proof.
  intros Hc Halloc.
  eapply wp_mono with
    (Q := λ r σ0, (∃ fs, r = Val fs) ∧ (∀ fs, r = Val fs → prepared c σ fs σ0)).
  2:{ intros r σ0 [[fs ->] Hp]. exists fs. auto. }
  unfold wp. split; [|by apply prepareFlagSet_spec].
  unfold prepareFlagSet. unfold bind at 1. unfold getCommand at 1. rewrite Hc.
  destruct (Command.FlagSet cmd) as [fs|] eqn:Hfs.
  - destruct (Halloc c cmd fs Hc Hfs) as [f Hf].
    unfold bind at 1. unfold ret at 1. unfold bind at 1. unfold getCommand at 1.
    rewrite Hc. destruct (Command.UsageFunc cmd); unfold bind, ret, putCommand,
      getFlagSet, putFlagSet; cbn; rewrite Hf; cbn; eauto.
  - unfold bind, NewFlagSet, putCommand, getCommand, ret, getFlagSet, putFlagSet.
    cbn. rewrite lookup_insert_eq. cbn.
    destruct (Command.UsageFunc cmd); cbn; rewrite lookup_insert_eq; cbn; eauto.
Qed.

Lemma bindFlags_stops c argv rest σ cmd :
  cmds σ !! c = Some cmd →
  flagSetsAllocated σ →
  (argv = rest ∧ (rest = [] ∨ ∃ first tl, rest = first :: tl ∧ notFlag first)) ∨
  argv = "--" :: rest →
  ∃ σ1, bindFlags c argv σ = (Val rest, σ1).
Proof.
  intros Hc Halloc Hargv.
  cut (wp (bindFlags c argv) (λ r _, r = Val rest) σ).
  { unfold wp. destruct (bindFlags c argv σ) as [r σ1]. cbn. intros ->. eauto. }
  unfold bindFlags. apply wp_bind.
  eapply wp_mono; [by eapply prepareFlagSet_runs|].
  intros r σ0 (fs & -> & Hprep).
  destruct Hprep as (_ & cmd' & cmd0 & f0 & _ & Hcmds & _ & _ & _ & _ & Hf0 & _).
  apply wp_bind. eapply wp_mono; [by eapply FlagSet_Parse_stops|].
  intros r σ' (-> & Hcs & _ & f' & Hf' & Hargs).
  unfold FlagSet_Args. wp_steps. rewrite Hf'. wp_steps.
  rewrite Hcs, Hcmds, lookup_insert_eq. wp_steps. by rewrite Hargs.
Qed.

Lemma selectedBy_sameNode a b tok :
  sameNode a b → selectedBy b tok = selectedBy a tok.
Proof.
  intros (Hu & Ha & _). unfold selectedBy, Name. by rewrite Hu, Ha.
Qed.

(** The children that the caller's tree passes over are passed over after
    the flag binding at [c] too. *)
Lemma passedOver_bound c argv σ rest σ1 tok q :
  bindFlags c argv σ = (Val rest, σ1) →
  passedOver σ tok q → notSelecting σ1 tok q.
Proof.
  intros Hb (l & child & -> & Hl & Hno).
  destruct (bindFlags_Val _ _ _ _ _ Hb)
    as (_ & _ & cmd & cmd1 & fs & f1 & Hc & Hcmds & Hsame & _).
  assert (Hsel : selectedBy child tok = false).
  { destruct (selectedBy child tok) eqn:Hs; [|done].
    by apply selectedBy_answersTo in Hs. }
  destruct (decide (l = c)) as [->|Hne].
  - exists c, cmd1. rewrite Hcmds, lookup_insert_eq. split; [done|split; [done|]].
    rewrite Hc in Hl. injection Hl as ->. by rewrite (selectedBy_sameNode child cmd1).
  - exists l, child. by rewrite Hcmds, lookup_insert_ne.
Qed.

(** Selection of a child, in terms of the tree as the caller built it. *)
Lemma Parse_selects c argv σ cmd first tl σ1 pre sub post child :
  cmds σ !! c = Some cmd →
  Command.selected cmd = None →
  bindFlags c argv σ = (Val (first :: tl), σ1) →
  Command.Subcommands cmd = pre ++ Some sub :: post →
  Forall (passedOver σ first) pre →
  cmds σ !! sub = Some child →
  answersTo child first →
  ∃ σ2 cmd2,
    Parse c argv σ = Parse sub tl σ2 ∧
    cmds σ2 !! c = Some cmd2 ∧
    Command.selected cmd2 = Some sub ∧
    Command.args cmd2 = first :: tl.
Proof.
  intros Hc Hsel Hb Hsubs Hpre Hsub Hans.
  destruct (bindFlags_Val _ _ _ _ _ Hb)
    as (_ & _ & cmd' & cmd1 & fs & f1 & Hc' & Hcmds & Hsame & Hargs & _).
  rewrite Hc in Hc'. injection Hc' as <-.
  assert (Hc1 : cmds σ1 !! c = Some cmd1) by (rewrite Hcmds; apply lookup_insert_eq).
  assert (∃ child1, cmds σ1 !! sub = Some child1 ∧ selectedBy child1 first = true)
    as (child1 & Hsub1 & Hsel1).
  { destruct (decide (sub = c)) as [->|Hne].
    - exists cmd1. split; [done|]. rewrite Hc in Hsub. injection Hsub as ->.
      rewrite (selectedBy_sameNode child cmd1) by done.
      by apply selectedBy_answersTo.
    - exists child. rewrite Hcmds, lookup_insert_ne by done.
      split; [done|]. by apply selectedBy_answersTo. }
  exists (mkState (<[c := Command.with_selected (Some sub) cmd1]> (cmds σ1))
                  (fsets σ1) (out σ1)),
         (Command.with_selected (Some sub) cmd1).
  split; [|split; [apply lookup_insert_eq|by split]].
  change tl with (tail (first :: tl)).
  eapply Parse_child; [done..| |].
  - cbn [selectChild]. unfold bind, getCommand. rewrite Hc1.
    destruct Hsame as (_ & _ & -> & _). rewrite Hsubs.
    apply (findSubcommand_first _ _ _ child1); [|done..].
    eapply Forall_impl; [done|]. intros q. by apply (passedOver_bound c argv σ (first :: tl) σ1).
  - unfold setSelected, bind, getCommand. by rewrite Hc1.
Qed.

(** X7.  The terminator [--] ends flag binding at a node and is dropped;
    what follows is positional for that node, whatever it looks like.  It is
    not thereby protected from child selection: when the token after the
    terminator is answered by a child, that child is selected and parsed
    with the rest. *)
Theorem terminator_ends_flag_binding c σ cmd rest :
  cmds σ !! c = Some cmd →
  Command.selected cmd = None →
  flagSetsAllocated σ →
  (∃ σ1, bindFlags c ("--" :: rest) σ = (Val rest, σ1)) ∧
  (∀ first tl pre sub post child,
     rest = first :: tl →
     Command.Subcommands cmd = pre ++ Some sub :: post →
     Forall (passedOver σ first) pre →
     cmds σ !! sub = Some child →
     answersTo child first →
     ∃ σ2 cmd2,
       Parse c ("--" :: rest) σ = Parse sub tl σ2 ∧
       cmds σ2 !! c = Some cmd2 ∧
       Command.selected cmd2 = Some sub ∧
       Command.args cmd2 = rest).
Proof.
  intros Hc Hsel Halloc.
  destruct (bindFlags_stops c ("--" :: rest) rest σ cmd Hc Halloc) as [σ1 Hb];
    [by right|].
  split; [by exists σ1|].
  intros first tl pre sub post child -> Hsubs Hpre Hsub Hans.
  by eapply Parse_selects.
Qed.

(** X8.  Flag binding at a node stops at the first token that is not a flag
    (shorter than two bytes, or not beginning with a minus sign), and on an
    empty vector: the whole vector is the positional remainder.  So when the
    first token is answered by a child, the child is selected and everything
    after that token, flags included, goes to the child unread. *)
Theorem flag_binding_stops_at_first_positional c σ cmd argv :
  cmds σ !! c = Some cmd →
  Command.selected cmd = None →
  flagSetsAllocated σ →
  argv = [] ∨ (∃ first tl, argv = first :: tl ∧ notFlag first) →
  (∃ σ1, bindFlags c argv σ = (Val argv, σ1)) ∧
  (∀ first tl pre sub post child,
     argv = first :: tl →
     Command.Subcommands cmd = pre ++ Some sub :: post →
     Forall (passedOver σ first) pre →
     cmds σ !! sub = Some child →
     answersTo child first →
     ∃ σ2 cmd2,
       Parse c argv σ = Parse sub tl σ2 ∧
       cmds σ2 !! c = Some cmd2 ∧
       Command.selected cmd2 = Some sub ∧
       Command.args cmd2 = argv).
Proof.
  intros Hc Hsel Halloc Hargv.
  destruct (bindFlags_stops c argv argv σ cmd Hc Halloc) as [σ1 Hb];
    [by left|].
  split; [by exists σ1|].
  intros first tl pre sub post child -> Hsubs Hpre Hsub Hans.
  by eapply Parse_selects.
Qed.
End Stops.

(** ** scli.go: Parse, the successful return *)

Section Success.
Context `{GoStdlib}.

(** X9.  When [Parse] resolves to a terminal node, it returns nil exactly
    when the node has an [Exec] and its validator, if it has one, accepts
    the positional remainder.  It then has printed nothing, and what it
    leaves is the tree after the flag binding with the terminal node
    selecting itself. *)
Theorem Parse_succeeds_iff root argv σ t rest σ1 cmd1 :
  resolvesTo root argv σ t rest σ1 →
  cmds σ1 !! t = Some cmd1 →
  let σ2 := mkState (<[t := Command.with_selected (Some t) cmd1]> (cmds σ1))
                    (fsets σ1) (out σ1) in
  ((Parse root argv σ).1 = Val tt ↔
     is_Some (Command.Exec cmd1) ∧
     ∀ validate, Command.ArgsValidator cmd1 = Some validate → validate rest = Val tt) ∧
  ((Parse root argv σ).1 = Val tt →
     Parse root argv σ = (Val tt, σ2) ∧ out σ2 = out σ).
Proof.
  intros Hres Hc σ2.
  destruct (Parse_resolvesTo _ _ _ _ _ _ Hres)
    as (HP & Ho & cmd1' & fs & f1 & Hc' & _ & Hargs & _).
  rewrite Hc in Hc'. injection Hc' as <-.
  assert (Hiff : (resolveSelf t σ1).1 = Val tt ↔
     is_Some (Command.Exec cmd1) ∧
     ∀ validate, Command.ArgsValidator cmd1 = Some validate → validate rest = Val tt).
  { rewrite (resolveSelf_eval _ _ _ Hc). cbn zeta.
    destruct (Command.Exec cmd1) as [exec|].
    2:{ split; [done|]. by intros [[? [=]] _]. }
    destruct (Command.ArgsValidator cmd1) as [validate|].
    2:{ split; [|done]. intros _. split; [by eexists|]. by intros ? [=]. }
    rewrite Hargs.
    destruct (validate rest) as [[]|err| | |] eqn:Hv; cbn [fst].
    - split; [|done]. intros _. split; [by eexists|]. by intros ? [= <-].
    - split.
      + unfold bind, error_Error.
        match goal with |- context [callFlagSetUsage t ?s] =>
          destruct (callFlagSetUsage t s) as [[] ?]; try done end.
        by destruct (errorMessage _ _).
      + intros [_ Hall]. specialize (Hall _ eq_refl). congruence.
    - split; [done|]. intros [_ Hall]. specialize (Hall _ eq_refl). congruence.
    - split; [done|]. intros [_ Hall]. specialize (Hall _ eq_refl). congruence.
    - split; [done|]. intros [_ Hall]. specialize (Hall _ eq_refl). congruence. }
  rewrite HP. split; [done|]. intros Hval. split; [|done].
  destruct (resolveSelf t σ1) as [r σ'] eqn:Hr. cbn [fst] in Hval. subst r.
  by rewrite (resolveSelf_Val _ _ _ _ Hc Hr).
Qed.
End Success.

(** ** scli.go: Parse, what it writes *)

Lemma keepsNode_refl a : keepsNode a a.
Proof. by repeat split. Qed.

Lemma keepsNode_trans a b c : keepsNode a b → keepsNode b c → keepsNode a c.
Proof.
  intros (H1 & H2 & H3 & H4 & H5 & H6 & H7 & Hfs & Hu & Hsel)
         (H1' & H2' & H3' & H4' & H5' & H6' & H7' & Hfs' & Hu' & Hsel').
  repeat split; try congruence; [by auto..|].
  intros Hs. pose proof (Hsel Hs) as ->. by apply Hsel'.
Qed.

Lemma keepsTree_refl σ : keepsTree σ σ.
Proof. intros p. destruct (cmds σ !! p); [apply keepsNode_refl|done]. Qed.

Lemma keepsTree_trans σ1 σ2 σ3 : keepsTree σ1 σ2 → keepsTree σ2 σ3 → keepsTree σ1 σ3.
Proof.
  intros H12 H23 p. specialize (H12 p). specialize (H23 p).
  destruct (cmds σ1 !! p), (cmds σ2 !! p), (cmds σ3 !! p); try done.
  by eapply keepsNode_trans.
Qed.

Lemma keepsTree_cmds σ σ' : cmds σ' = cmds σ → keepsTree σ σ'.
Proof. intros Heq p. rewrite Heq. destruct (cmds σ !! p); [apply keepsNode_refl|done]. Qed.

Lemma keepsTree_insert c a b σ σ' :
  cmds σ !! c = Some a → keepsNode a b → cmds σ' = <[c := b]> (cmds σ) →
  keepsTree σ σ'.
Proof.
  intros Hc Hk Heq p. rewrite Heq. destruct (decide (p = c)) as [->|Hne].
  - by rewrite lookup_insert_eq, Hc.
  - rewrite lookup_insert_ne by done.
    destruct (cmds σ !! p); [apply keepsNode_refl|done].
Qed.

Ltac keeps_node :=
  repeat split; cbn; try done; try congruence;
  try (intros [? ?]; congruence).

Section Writes.
Context `{GoStdlib}.

Lemma prepareFlagSet_rewrites c σ a :
  cmds σ !! c = Some a → Command.selected a = None →
  wp (prepareFlagSet c) (λ _ σ', rewrites c a σ σ') σ.
Proof.
  intros Hc Hsel. unfold prepareFlagSet, rewrites.
  apply wp_bind, wp_getCommand. rewrite Hc.
  destruct (Command.FlagSet a) as [fs|] eqn:Hfs.
  - wp_steps. rewrite Hc.
    destruct (Command.UsageFunc a) as [u|] eqn:Hu; wp_steps.
    + destruct (fsets σ !! fs) as [f|]; cbn; wp_steps;
        (exists a; rewrite insert_id by done; split; [done|];
         split; [apply keepsNode_refl|done]).
    + destruct (fsets σ !! fs) as [f|]; cbn; wp_steps;
        (eexists; split; [done|]; split; [|done]; keeps_node).
  - apply wp_bind, wp_bind, wp_NewFlagSet. cbn.
    wp_steps. rewrite !lookup_insert_eq. cbn.
    destruct (Command.UsageFunc a) as [u|] eqn:Hu; wp_steps;
      rewrite ?lookup_insert_eq; wp_steps; rewrite ?insert_insert_eq;
      (eexists; split; [done|]; split; [|done]; keeps_node).
Qed.

Lemma bindFlags_rewrites c argv σ a :
  cmds σ !! c = Some a → Command.selected a = None →
  wp (bindFlags c argv) (λ _ σ', rewrites c a σ σ') σ.
Proof.
  intros Hc Hsel. unfold bindFlags. apply wp_bind.
  eapply wp_mono; [by apply prepareFlagSet_rewrites|].
  intros r σ0 (b & Hcmds & Hk & Hb). destruct r as [fs| | | |]; try by exists b.
  apply wp_bind. eapply wp_mono; [apply FlagSet_Parse_spec|].
  intros r σ1 (Hc1 & _). destruct r as [[]| | | |];
    try (exists b; by rewrite Hc1).
  unfold FlagSet_Args. wp_steps.
  destruct (fsets σ1 !! fs) as [f1|]; cbn; [|exists b; by rewrite Hc1].
  wp_steps. rewrite Hc1, Hcmds, lookup_insert_eq. wp_steps.
  rewrite Hc1, Hcmds, insert_insert_eq. eexists. split; [done|]. split; [|done].
  destruct Hk as (? & ? & ? & ? & ? & ? & ? & ? & ? & ?). keeps_node; auto.
Qed.

Lemma resolveSelf_cmds c σ b :
  cmds σ !! c = Some b →
  wp (resolveSelf c)
     (λ _ σ', cmds σ' = <[c := Command.with_selected (Some c) b]> (cmds σ)) σ.
Proof.
  intros Hc. unfold wp. rewrite (resolveSelf_eval _ _ _ Hc). cbn zeta.
  destruct (Command.Exec b); [|done].
  destruct (Command.ArgsValidator b) as [validate|]; [|done].
  destruct (validate (Command.args b)) as [[]|err| | |]; try done.
  match goal with |- cmds (?m ?s).2 = ?h =>
    change (wp m (λ _ σ', cmds σ' = h) s) end.
  apply wp_bind. eapply wp_mono; [apply callFlagSetUsage_quiet|].
  intros r' σ' [[Hq _] _]. cbn [cmds] in Hq. destruct r' as [[]| | | |]; try done.
  unfold error_Error. apply wp_bind. unfold wp.
  by destruct (errorMessage (cmds σ') err).
Qed.

Lemma Parse_fuel_keeps fuel :
  ∀ c argv σ, wp (Parse_fuel fuel c argv) (λ _ σ', keepsTree σ σ') σ.
Proof.
  induction fuel as [|fuel IH]; intros c argv σ; [apply keepsTree_refl|].
  unfold wp. rewrite Parse_fuel_S. fold (wp (A:=unit)).
  change (wp (let* cmd := getCommand c in
              match Command.selected cmd with
              | Some _ => ret tt
              | None =>
                  let* rest := bindFlags c argv in
                  let* child := selectChild c rest in
                  match child with
                  | Some sub => let* _ := setSelected c sub in
                                Parse_fuel fuel sub (tail rest)
                  | None => resolveSelf c
                  end
              end) (λ _ σ', keepsTree σ σ') σ).
  apply wp_bind, wp_getCommand.
  destruct (cmds σ !! c) as [a|] eqn:Hc; [|apply keepsTree_refl].
  destruct (Command.selected a) eqn:Hsel; [apply keepsTree_refl|].
  apply wp_bind. eapply wp_mono; [by apply bindFlags_rewrites|].
  intros r σ1 (b & Hcmds & Hk & Hb).
  assert (H01 : keepsTree σ σ1) by by eapply keepsTree_insert.
  assert (Hc1 : cmds σ1 !! c = Some b) by (rewrite Hcmds; apply lookup_insert_eq).
  destruct r as [rest| | | |]; try done.
  apply wp_bind. eapply wp_mono; [apply selectChild_spec|].
  intros r σ1' (-> & _). destruct r as [[sub|]| | | |]; try done.
  - unfold setSelected. wp_steps. rewrite Hc1. wp_steps.
    eapply wp_mono; [apply IH|]. intros ? σ' H2. cbn beta in H2.
    eapply keepsTree_trans; [|exact H2].
    eapply keepsTree_trans; [exact H01|].
    eapply (keepsTree_insert c b); [done| |done]. keeps_node.
  - eapply wp_mono; [by apply resolveSelf_cmds|]. intros ? σ' Hcmds'. cbn beta in Hcmds'.
    eapply keepsTree_trans; [exact H01|].
    eapply (keepsTree_insert c b); [done| |done]. keeps_node.
Qed.

(** X10.  Whatever [Parse] returns (nil, an error, an exit or a panic), it
    creates and removes no node; it leaves the [Usage], [Aliases],
    [ShortHelp], [LongHelp], [Subcommands], [ArgsValidator] and [Exec] of
    every node as they were; it keeps a [FlagSet] and a [UsageFunc] that
    were set; and a node that had a selection is left exactly as it was.
    The only writes are to [FlagSet] and [UsageFunc] where they were nil, and
    to [selected] and [args] of nodes that had no selection. *)
Theorem Parse_keeps_the_tree c argv σ :
  keepsTree σ (Parse c argv σ).2 ∧
  ∀ fuel, keepsTree σ (Parse_fuel fuel c argv σ).2.
Proof. split; [|intros fuel]; apply Parse_fuel_keeps. Qed.
End Writes.

(** ** scli.go: Run *)

Section Running.
Context `{GoStdlib}.

Lemma Run_fuel_S fuel c ctx :
  Run_fuel (S fuel) c ctx =
  (let* cmd := getCommand c in
   match Command.selected cmd with
   | None => fail ErrUnparsed
   | Some s =>
       if bool_decide (s = c) then runSelf c cmd ctx else Run_fuel fuel s ctx
   end).
Proof. done. Qed.

Lemma Run_fuel_self fuel t ctx σ cmd :
  cmds σ !! t = Some cmd → Command.selected cmd = Some t →
  Run_fuel (S fuel) t ctx σ = runSelf t cmd ctx σ.
Proof.
  intros Hc Hsel. rewrite Run_fuel_S. unfold bind, getCommand.
  by rewrite Hc, Hsel, bool_decide_eq_true_2.
Qed.

Lemma Run_fuel_next fuel p ctx σ cmd q :
  cmds σ !! p = Some cmd → Command.selected cmd = Some q → q ≠ p →
  Run_fuel (S fuel) p ctx σ = Run_fuel fuel q ctx σ.
Proof.
  intros Hc Hsel Hne. rewrite Run_fuel_S. unfold bind, getCommand.
  by rewrite Hc, Hsel, bool_decide_eq_false_2.
Qed.

Lemma runSelf_handsOn t cmd ctx exec :
  Command.Exec cmd = Some exec →
  runSelf t cmd ctx = handsOn t (exec ctx (Command.args cmd)).
Proof. intros Hexec. unfold runSelf, handsOn. rewrite Hexec. by destruct (exec ctx _). Qed.

(** X11.  [Run] follows the selections: on a node from which the
    [selected] pointers lead, node by node, to a node that selects itself,
    [Run] does what it does on that last node, and only there: it calls no
    [Exec] but the last node's, on the last node's [args].  The depth of the
    recursion is the length of the chain. *)
Theorem Run_follows_the_selections σ p path ctx fuel :
  selChain σ p path →
  (length path ≤ fuel)%nat →
  ∃ t cmd,
    last path = Some t ∧
    cmds σ !! t = Some cmd ∧
    Command.selected cmd = Some t ∧
    Run_fuel fuel p ctx σ = runSelf t cmd ctx σ ∧
    ∀ exec, Command.Exec cmd = Some exec →
      Run_fuel fuel p ctx σ = handsOn t (exec ctx (Command.args cmd)) σ.
Proof.
  intros Hchain. revert fuel.
  induction Hchain as [p cmd Hp Hsel|p cmd q path Hp Hsel Hne Hin Hchain IH];
    intros fuel Hfuel; cbn [length] in Hfuel;
    (destruct fuel as [|fuel]; [lia|]).
  - exists p, cmd. rewrite (Run_fuel_self _ _ _ _ _ Hp Hsel).
    repeat split; try done. intros exec Hexec. by rewrite (runSelf_handsOn _ _ _ exec).
  - destruct (IH fuel) as (t & cmdt & Hlast & Ht & Hselt & Hrun & Hexec); [lia|].
    exists t, cmdt. rewrite (Run_fuel_next _ _ _ _ _ _ Hp Hsel Hne).
    repeat split; try done.
    destruct path; [by inversion Hchain|]. by rewrite last_cons, Hlast.
Qed.

Lemma callFlagSetUsage_prints c σ :
  wp (callFlagSetUsage c)
     (λ _ σ', cmds σ' = cmds σ ∧ fsets σ' = fsets σ ∧
              (out σ' = out σ ∨ ∃ e, out σ' = out σ ++ [e])) σ.
Proof.
  unfold callFlagSetUsage, runUsageHook, commandUsageClosure.
  repeat (first [wp_step | progress cbn beta iota | case_match]); eauto.
Qed.

Lemma runSelf_prints t cmd ctx σ :
  wp (runSelf t cmd ctx)
     (λ _ σ', cmds σ' = cmds σ ∧ fsets σ' = fsets σ ∧
              (out σ' = out σ ∨ ∃ e, out σ' = out σ ++ [e])) σ.
Proof.
  unfold runSelf. destruct (Command.Exec cmd) as [exec|]; [|by unfold wp; cbn; auto].
  destruct (exec ctx (Command.args cmd)) as [[]|err| | |];
    try by unfold wp; cbn; auto.
  destruct (errors_Is err ErrHelp || errors_Is err ErrInvalidArguments);
    [|by unfold wp; cbn; auto].
  apply wp_bind. eapply wp_mono; [apply callFlagSetUsage_prints|].
  intros r σ' Hpost. by destruct r as [[]| | | |].
Qed.

(** X12.  [Run] itself writes nothing into the tree, whatever the
    selections and however it ends: the nodes and the flag sets are as they
    were, and the only thing [Run] may print is one usage text.  (The action
    it calls is a function of the context and the arguments here; what a
    caller's [Exec] does on its own is not [Run]'s doing.) *)
Theorem Run_writes_nothing fuel c ctx σ :
  let σ' := (Run_fuel fuel c ctx σ).2 in
  cmds σ' = cmds σ ∧ fsets σ' = fsets σ ∧
  (out σ' = out σ ∨ ∃ e, out σ' = out σ ++ [e]).
Proof.
  cbn zeta. revert c σ. induction fuel as [|fuel IH]; intros c σ; [by cbn; auto|].
  rewrite Run_fuel_S.
  match goal with |- context [(?m σ).2] =>
    change (wp m (λ _ σ', cmds σ' = cmds σ ∧ fsets σ' = fsets σ ∧
                          (out σ' = out σ ∨ ∃ e, out σ' = out σ ++ [e])) σ) end.
  apply wp_bind, wp_getCommand. destruct (cmds σ !! c) as [cmd|]; [|by cbn; auto].
  destruct (Command.selected cmd) as [s|]; [|by unfold wp; cbn; auto].
  case_bool_decide; [apply runSelf_prints|apply IH].
Qed.




(** X15.  [Run] has no guard against selections that go round: on a node
    of a set in which every node selects another node of the set, the
    recursion of [Run] never comes to an end, whatever depth it is given,
    and nothing is called or printed on the way. *)
Theorem Run_never_returns_on_a_selection_loop (nodes : loc → Prop) σ ctx p fuel :
  selectionLoop nodes σ → nodes p → Run_fuel fuel p ctx σ = (Timeout, σ).
Proof.
  intros Hloop. revert p. induction fuel as [|fuel IH]; intros p Hp; [done|].
  destruct (Hloop p Hp) as (cmd & q & Hc & Hsel & Hne & Hq).
  rewrite (Run_fuel_next _ _ _ _ _ _ Hc Hsel Hne). by apply IH.
Qed.
End Running.

(** ** scli.go: ParseAndRun *)

Section Whole.
Context `{GoStdlib}.

Lemma setSelected_eval c s σ b :
  cmds σ !! c = Some b →
  setSelected c s σ =
  (Val tt, mkState (<[c := Command.with_selected (Some s) b]> (cmds σ))
                   (fsets σ) (out σ)).
Proof. intros Hc. unfold setSelected, bind, getCommand. by rewrite Hc. Qed.

Lemma descends_keeps c argv σ t argv' σt :
  descends c argv σ t argv' σt → keepsTree σ σt.
Proof.
  induction 1 as [|c argv σ cmd rest σ1 sub σ2 t argv' σt Hc Hsel Hb _ Hset _ IH];
    [apply keepsTree_refl|].
  destruct (wp_intro _ _ _ _ _ Hb (bindFlags_rewrites c argv σ cmd Hc Hsel))
    as (b & Hcmds & Hk & Hselb).
  assert (Hc1 : cmds σ1 !! c = Some b) by (rewrite Hcmds; apply lookup_insert_eq).
  rewrite (setSelected_eval _ _ _ _ Hc1) in Hset. injection Hset as <-.
  eapply keepsTree_trans; [|exact IH].
  eapply keepsTree_trans; [by eapply keepsTree_insert|].
  eapply (keepsTree_insert c b); [done| |done]. keeps_node.
Qed.

(** After a descent of [Parse] from [c] to [t], in any later state of the
    tree, [Run] on [c] goes down to [t]. *)
Lemma descends_Run ctx c argv σ t argv' σt :
  descends c argv σ t argv' σt →
  (∃ cmd, cmds σt !! t = Some cmd ∧ Command.selected cmd = None) →
  ∀ σf, keepsTree σt σf →
  ∃ n, (n + length argv' ≤ length argv)%nat ∧
       ∀ fuel, Run_fuel (n + fuel) c ctx σf = Run_fuel fuel t ctx σf.
Proof.
  induction 1 as [|c argv σ cmd rest σ1 sub σ2 t argv' σt Hc Hsel Hb Hs Hset Hd IH];
    intros Hunsel σf Hkeep.
  { exists 0%nat. split; [lia|done]. }
  destruct (IH Hunsel σf Hkeep) as (n & Hn & Hrun).
  destruct (bindFlags_Val _ _ _ _ _ Hb)
    as (_ & Hlen & cmd' & cmd1 & fs & f1 & _ & Hcmds & _).
  assert (Hc1 : cmds σ1 !! c = Some cmd1) by (rewrite Hcmds; apply lookup_insert_eq).
  rewrite (setSelected_eval _ _ _ _ Hc1) in Hset. injection Hset as <-.
  set (c2 := Command.with_selected (Some sub) cmd1) in *.
  assert (Hc2 : ∀ σ2, cmds σ2 = <[c := c2]> (cmds σ1) → cmds σ2 !! c = Some c2)
    by (intros ? ->; apply lookup_insert_eq).
  assert (Hne : sub ≠ c).
  { intros ->. inversion Hd; subst.
    - destruct Hunsel as (cmd0 & Hc0 & Hsel0). cbn [cmds] in Hc0.
      rewrite lookup_insert_eq in Hc0. by injection Hc0 as <-.
    - match goal with Hx : cmds _ !! c = Some ?x, Hy : Command.selected ?x = None |- _ =>
        cbn [cmds] in Hx; rewrite lookup_insert_eq in Hx; by injection Hx as <- end. }
  assert (Hcf : cmds σf !! c = Some c2).
  { pose proof (keepsTree_trans _ _ _ (descends_keeps _ _ _ _ _ _ Hd) Hkeep c) as Hk.
    cbn [cmds] in Hk. rewrite lookup_insert_eq in Hk.
    destruct (cmds σf !! c) as [b'|]; [|done].
    destruct Hk as (_ & _ & _ & _ & _ & _ & _ & _ & _ & ->); [by eexists|done]. }
  exists (S n). split.
  - destruct rest as [|first tl]; [by injection Hs|]. cbn [tail length] in *. lia.
  - intros fuel. cbn [Nat.add].
    rewrite (Run_fuel_next _ _ _ _ _ _ Hcf eq_refl Hne). apply Hrun.
Qed.

(** X14.  [ParseAndRun], end to end.  When [Parse] resolves to a terminal
    node that has an [Exec] and whose validator, if any, accepts the
    positional remainder, [ParseAndRun] on the root calls that node's [Exec],
    on the context given and on the positional remainder, and returns what
    [Run] makes of its result.  [Run] finds the terminal node by the
    selections that [Parse] has just written, however deep it lies; the
    recursion of [Run] is no deeper than the argument vector is long. *)
Theorem ParseAndRun_runs_the_terminal root argv σ t rest σ1 cmd1 exec ctx fuel :
  resolvesTo root argv σ t rest σ1 →
  cmds σ1 !! t = Some cmd1 →
  Command.Exec cmd1 = Some exec →
  (∀ validate, Command.ArgsValidator cmd1 = Some validate → validate rest = Val tt) →
  (length argv < fuel)%nat →
  let σ2 := mkState (<[t := Command.with_selected (Some t) cmd1]> (cmds σ1))
                    (fsets σ1) (out σ1) in
  Parse root argv σ = (Val tt, σ2) ∧
  ParseAndRun_fuel fuel root ctx argv σ = handsOn t (exec ctx rest) σ2.
Proof.
  intros Hres Hc1 Hexec Hvalid Hfuel σ2.
  destruct (Parse_resolvesTo _ _ _ _ _ _ Hres)
    as (HP & _ & cmd1' & fs & f1 & Hc1' & Hsel1 & Hargs & _).
  rewrite Hc1 in Hc1'. injection Hc1' as <-.
  assert (HParse : Parse root argv σ = (Val tt, σ2)).
  { rewrite HP, (resolveSelf_eval _ _ _ Hc1). cbn zeta. rewrite Hexec.
    destruct (Command.ArgsValidator cmd1) as [validate|]; [|done].
    by rewrite Hargs, (Hvalid validate eq_refl). }
  split; [done|].
  unfold ParseAndRun_fuel, bind. rewrite HParse.
  destruct Hres as (argv' & σt & Hd & (cmdt & Hct & Hselt) & Hb & _).
  destruct (wp_intro _ _ _ _ _ Hb (bindFlags_rewrites t argv' σt cmdt Hct Hselt))
    as (b & Hcmds & Hk & Hselb).
  assert (b = cmd1) as ->
    by (rewrite Hcmds, lookup_insert_eq in Hc1; by injection Hc1).
  assert (Hkeep : keepsTree σt σ2).
  { eapply keepsTree_trans; [by eapply keepsTree_insert|].
    eapply (keepsTree_insert t cmd1); [done| |done]. keeps_node. }
  destruct (descends_Run ctx _ _ _ _ _ _ Hd (ex_intro _ cmdt (conj Hct Hselt)) σ2 Hkeep)
    as (n & Hn & Hrun).
  replace fuel with (n + S (fuel - n - 1))%nat by lia.
  rewrite Hrun.
  rewrite (Run_fuel_self _ t ctx σ2 (Command.with_selected (Some t) cmd1));
    [|apply lookup_insert_eq|done].
  rewrite (runSelf_handsOn _ _ _ exec) by done. cbn. by rewrite Hargs.
Qed.
End Whole.

Section Again.
Context `{GoStdlib}.

(** X16.  [ParseAndRun] on a node that already has a selection does not
    look at its arguments: [Parse] returns at once, and what runs is the
    selection of the earlier parse, with the positional arguments of the
    earlier parse. *)
Theorem ParseAndRun_on_a_parsed_node_ignores_the_arguments
    c ctx argv σ cmd s fuel :
  cmds σ !! c = Some cmd →
  Command.selected cmd = Some s →
  ParseAndRun_fuel fuel c ctx argv σ = Run_fuel fuel c ctx σ ∧
  ∀ argv', ParseAndRun_fuel fuel c ctx argv' σ = ParseAndRun_fuel fuel c ctx argv σ.
Proof.
  intros Hc Hsel.
  assert (HP : ∀ a, ParseAndRun_fuel fuel c ctx a σ = Run_fuel fuel c ctx σ).
  { intros a. unfold ParseAndRun_fuel. unfold bind at 1. rewrite Parse_unfold.
    unfold bind at 1. unfold getCommand. by rewrite Hc, Hsel. }
  split; [apply HP|]. intros argv'. by rewrite !HP.
Qed.

(** X17.  The recursion of [Parse] comes to an end on every graph of
    commands, trees or not: each descent to a child takes at least one
    argument off the vector, so the recursion is no deeper than the vector is
    long, and any greater bound on the depth gives the same run.  [Parse]
    then returns, exits or panics, provided the caller's code that it calls
    does: the validators, which is the hypothesis here; and the usage
    functions (called when a usage is rendered) and the [Set] methods of the
    flag values (called by [FlagSet.Parse]), which are taken as returning:
    rendering a usage is an output event, and [Set] a function from the text
    to an error or none. *)
Theorem Parse_comes_to_an_end c argv σ :
  validatorsReturn σ →
  (Parse c argv σ).1 ≠ Timeout ∧
  ∀ fuel, (length argv < fuel)%nat → Parse_fuel fuel c argv σ = Parse c argv σ.
Proof.
  intros Hval. split; [by apply Parse_returns|].
  intros fuel Hfuel. by apply Parse_fuel_enough.
Qed.
End Again.

(** * The theorems at work on the examples *)

#[local] Existing Instance exampleStdlib.

(** A run is determined by its outcome and the state it leaves. *)
Lemma run_eq {A} (m : M A) σ r : (m σ).1 = r → m σ = (r, (m σ).2).
Proof. intros <-. by destruct (m σ). Defined.

(** ** C1 *)



(** ** C2 *)

Lemma aliasedState_acyclic : acyclic aliasedRank aliasedState.
Proof.
  intros p cmd q Hp Hq. unfold aliasedState in Hp. cbn [cmds] in Hp.
  apply lookup_insert_Some in Hp as [[<- <-]|[_ Hp]].
  - cbn in Hq. apply list_elem_of_singleton in Hq. injection Hq as ->.
    vm_compute. lia.
  - apply lookup_singleton_Some in Hp as [<- <-]. cbn in Hq.
    by apply not_elem_of_nil in Hq.
Defined.

Lemma aliasedState_unparsed : unparsed aliasedState.
Proof.
  intros p cmd Hp. unfold aliasedState in Hp. cbn [cmds] in Hp.
  apply lookup_insert_Some in Hp as [[<- <-]|[_ Hp]]; [done|].
  by apply lookup_singleton_Some in Hp as [<- <-].
Defined.

(** "Aliased Sub": after [Parse] with [foobar] the chain is root, sub. *)
Lemma Parse_success_selects_chain_witness :
  ∃ path, selChain (Parse 0 ["foobar"] aliasedState).2 0 path ∧
          ∀ path', selChain (Parse 0 ["foobar"] aliasedState).2 0 path' →
                   path' = path.
Proof.
  apply (Parse_success_selects_chain aliasedRank 0 ["foobar"] aliasedState).
  - exact aliasedState_acyclic.
  - exact aliasedState_unparsed.
  - apply run_eq. vm_compute. reflexivity.
Defined.

(** A tree whose first [Parse] failed in the child's flag set ([sub] has
    been selected by the root but has selected nothing): a second [Parse] on
    the root returns nil, and no chain from the root ends in a node that
    selects itself. *)
Lemma Parse_success_without_chain :
  let σ1 := (Parse 0 ["sub"; "-x"] aliasedState).2 in
  (Parse 0 ["sub"; "-x"] aliasedState).1
    = Err (errorString "flag provided but not defined: -x") ∧
  acyclic aliasedRank σ1 ∧
  (Parse 0 [] σ1).1 = Val tt ∧
  ¬ ∃ path, selChain (Parse 0 [] σ1).2 0 path.
Proof.
  cbn zeta. split; [by vm_compute|].
  split; [apply (acyclic_ext _ aliasedState); [by vm_compute|apply aliasedState_acyclic]|].
  split; [by vm_compute|].
  set (σ2 := (Parse 0 [] (Parse 0 ["sub"; "-x"] aliasedState).2).2).
  assert (H0 : Command.selected <$> cmds σ2 !! 0 = Some (Some 1)) by by vm_compute.
  assert (H1 : Command.selected <$> cmds σ2 !! 1 = Some None) by by vm_compute.
  intros [path Hpath].
  inversion Hpath as [p cmd Hp Hsel|p cmd q path' Hp Hsel Hne Hin Hq]; subst;
    rewrite Hp in H0; cbn in H0; [congruence|].
  assert (q = 1) as -> by congruence.
  inversion Hq as [p cmd' Hp' Hsel'|p cmd' q' path'' Hp' Hsel' _ _ _]; subst;
    rewrite Hp' in H1; cbn in H1; congruence.
Qed.

(** ** C3 *)



(** ** C4 *)

(** The child [sub] has no [Exec]: [Parse] comes down to it from the root
    and fails there. *)
Lemma Parse_terminal_without_Exec_witness :
  ∃ σ', Parse 0 ["sub"] namespaceState = (Err (NoExecError 1), σ') ∧
        out σ' = out namespaceState.
Proof.
  set (σ1 := (bindFlags 0 ["sub"] namespaceState).2).
  set (σ2 := (setSelected 0 1 σ1).2).
  apply (Parse_terminal_without_Exec 0 ["sub"] namespaceState 1 []
           (bindFlags 1 [] σ2).2
           (Command.with_args []
              (Command.with_UsageFunc (Some defaultUsageFunc) namespaceSub))).
  - exists [], σ2. split.
    + apply (descends_child 0 ["sub"] namespaceState namespaceRoot ["sub"] σ1 1 σ2).
      * reflexivity.
      * reflexivity.
      * apply run_eq. vm_compute. reflexivity.
      * apply (run_eq (selectChild 0 ["sub"])). vm_compute. reflexivity.
      * apply run_eq. reflexivity.
      * apply descends_here.
    + split; [|split].
      * by exists namespaceSub.
      * apply run_eq. vm_compute. reflexivity.
      * apply (run_eq (selectChild 1 [])). vm_compute. reflexivity.
  - reflexivity.
  - reflexivity.
Defined.

(** ** C5 *)

Lemma Run_unparsed_witness :
  Run_fuel 1 0 context.Background rootState = (Err ErrUnparsed, rootState).
Proof. apply (Run_unparsed 0 0 context.Background rootState rootCmd); reflexivity. Defined.

(** ** C6 *)

(** Applied as a function, the value of [OnlyValidArgs] for the empty list
    panics: it is the nil function.  So does a [CombineValidator] that is
    handed it. *)
Lemma OnlyValidArgs_empty_call_panics :
  call (OnlyValidArgs []) ["a"] = Panic nilDereference ∧
  call (OnlyValidArgs []) ["a"] ≠ Val tt ∧
  call (CombineValidator [OnlyValidArgs []; Some NoArgs]) [] = Panic nilDereference.
Proof. repeat split. discriminate. Qed.

Lemma OnlyValidArgs_empty_is_no_validator_witness :
  OnlyValidArgs [] = None ∧
  ∃ σ', Parse 0 ["a"; "b"] anyArgsState = (Val tt, σ') ∧
        out σ' = out anyArgsState.
Proof.
  apply (OnlyValidArgs_empty_is_no_validator 0 ["a"; "b"] anyArgsState 0 ["a"; "b"]
           (bindFlags 0 ["a"; "b"] anyArgsState).2
           (Command.with_args ["a"; "b"]
              (Command.with_UsageFunc (Some defaultUsageFunc) anyArgsCmd))
           returnsNil).
  - exists ["a"; "b"], anyArgsState. split; [apply descends_here|].
    split; [|split].
    + by exists anyArgsCmd.
    + apply run_eq. vm_compute. reflexivity.
    + apply (run_eq (selectChild 0 ["a"; "b"])). vm_compute. reflexivity.
  - reflexivity.
  - reflexivity.
  - reflexivity.
Defined.

(** ** C7 *)

(** A root with three children, each with a usage of several words.  The
    token [SUB] passes over [first], selects [sub] by the first word of its
    usage, and never comes to [third], which would answer by its alias. *)
Lemma Parse_selects_first_answering_child_witness :
  Parse 0 ["SUB"; "y"] severalState =
  Parse 2 ["y"]
    (mkState
       (<[0 := Command.with_selected (Some 2)
                 (Command.with_args ["SUB"; "y"]
                    (Command.with_UsageFunc (Some defaultUsageFunc) severalRoot))]>
          (cmds (bindFlags 0 ["SUB"; "y"] severalState).2))
       (fsets (bindFlags 0 ["SUB"; "y"] severalState).2)
       (out (bindFlags 0 ["SUB"; "y"] severalState).2)) ∧
  Name severalSub = "sub" ∧
  selectedBy severalSub "SUB" = true ∧
  selectedBy severalSub "sub <file> [options]" = false ∧
  selectedBy severalFirst "SUB" = false ∧
  selectedBy severalThird "SUB" = true.
Proof.
  destruct (Parse_selects_first_answering_child 0 ["SUB"; "y"] severalState severalRoot
           "SUB" ["y"] (bindFlags 0 ["SUB"; "y"] severalState).2
           (Command.with_args ["SUB"; "y"]
              (Command.with_UsageFunc (Some defaultUsageFunc) severalRoot))
           [Some 1] 2 [Some 3] severalSub) as (HP & Hsel & _ & _ & Hname & _).
  - reflexivity.
  - reflexivity.
  - apply run_eq. vm_compute. reflexivity.
  - reflexivity.
  - reflexivity.
  - constructor; [|constructor]. exists 1, severalFirst.
    split; [reflexivity|]. split; [reflexivity|].
    intros [Hn|Ha].
    + vm_compute in Hn. discriminate.
    + apply Exists_cons in Ha as [Ha|Ha]; [vm_compute in Ha; discriminate|].
      by apply Exists_nil in Ha.
  - reflexivity.
  - left. vm_compute. reflexivity.
  - split; [exact HP|].
    assert (Hn : Name severalSub = "sub").
    { apply (Hname severalSub "sub" "<file> [options]"); [|by right].
      intros [|[|[|[|i]]]]; cbn; discriminate. }
    split; [exact Hn|]. repeat split; vm_compute; reflexivity.
Defined.

(** ** C8 *)

(** Two arguments: [MinArgs(1)] accepts, [ExactArgs(1)] rejects, and
    [NoArgs], which would reject too, is not the one reported. *)
Lemma CombineValidator_first_failure_witness :
  call (CombineValidator ([MinArgs 1] ++ ExactArgs 1 :: [Some NoArgs])) ["a"; "b"]
    = Err (errorString "requires exactly 1 arg(s), received 2") ∧
  call (CombineValidator [MinArgs 1]) ["a"; "b"] = Val tt.
Proof.
  apply (CombineValidator_first_failure [MinArgs 1] (ExactArgs 1) [Some NoArgs]).
  - constructor; [|constructor]. vm_compute. reflexivity.
  - vm_compute. reflexivity.
Defined.

(** ** C9 *)

(** "Root": a second [Parse], with other arguments, after a first one. *)
Lemma Parse_already_selected_witness :
  let σ := (Parse 0 [] rootState).2 in
  Parse 0 ["-h"; "x"] σ = (Val tt, σ) ∧
  ∀ fuel, Parse_fuel (S fuel) 0 ["-h"; "x"] σ = (Val tt, σ).
Proof.
  cbn zeta.
  apply (Parse_already_selected 0 ["-h"; "x"] (Parse 0 [] rootState).2
           (Command.with_selected (Some 0)
              (Command.with_args []
                 (Command.with_UsageFunc (Some defaultUsageFunc) rootCmd))) 0);
    reflexivity.
Defined.

(** ** C10 *)

(** "Invalid Args" again: the rejected root is selected all the same. *)
Lemma Parse_failure_keeps_selection_witness :
  let σ' := (Parse 0 ["x"] rootState).2 in
  ∃ cmd',
    cmds σ' !! 0 = Some cmd' ∧ Command.selected cmd' = Some 0 ∧
    (∀ argv2, Parse 0 argv2 σ' = (Val tt, σ')) ∧
    (∀ fuel ctx, Run_fuel (S fuel) 0 ctx σ' = runSelf 0 cmd' ctx σ') ∧
    (Command.Exec cmd' = None →
       ∀ fuel ctx, Run_fuel (S fuel) 0 ctx σ' = (Err (NoExecError 0), σ')) ∧
    (∀ fuel ctx, (Run_fuel (S fuel) 0 ctx σ').1 = Err ErrUnparsed →
       ∃ exec, Command.Exec cmd' = Some exec ∧
               exec ctx (Command.args cmd') = Err ErrUnparsed).
Proof.
  cbn zeta.
  apply (Parse_failure_keeps_selection 0 ["x"] rootState ["x"]
           (bindFlags 0 ["x"] rootState).2
           (wrapError "invalid arguments: was expecting to receive no arguemetns received 1"
                      ErrInvalidArguments)).
  - split; [by exists rootCmd|]. split.
    + apply run_eq. vm_compute. reflexivity.
    + apply (run_eq (selectChild 0 ["x"])). vm_compute. reflexivity.
  - apply run_eq. vm_compute. reflexivity.
Defined.

(** ** The further properties on the examples *)

Lemma aliasedState_allocated : flagSetsAllocated aliasedState.
Proof.
  intros p cmd fs Hp Hfs. unfold aliasedState in Hp. cbn [cmds] in Hp.
  apply lookup_insert_Some in Hp as [[<- <-]|[_ Hp]].
  - injection Hfs as <-. by eexists.
  - apply lookup_singleton_Some in Hp as [<- <-]. injection Hfs as <-. by eexists.
Defined.

(** "Aliased Sub" with the terminator in front: the root takes the
    terminator, the alias selects [sub], and [sub] is left with nothing. *)
Lemma aliasedState_resolves :
  resolvesTo 0 ["--"; "foobar"] aliasedState 1 []
    (bindFlags 1 []
       (setSelected 0 1 (bindFlags 0 ["--"; "foobar"] aliasedState).2).2).2.
Proof.
  set (σ1 := (bindFlags 0 ["--"; "foobar"] aliasedState).2).
  set (σ2 := (setSelected 0 1 σ1).2).
  exists [], σ2. split.
  - apply (descends_child 0 ["--"; "foobar"] aliasedState aliasedRoot ["foobar"] σ1 1 σ2).
    + reflexivity.
    + reflexivity.
    + apply run_eq. vm_compute. reflexivity.
    + apply (run_eq (selectChild 0 ["foobar"])). vm_compute. reflexivity.
    + apply run_eq. reflexivity.
    + apply descends_here.
  - split; [|split].
    + by exists aliasedSub.
    + apply run_eq. vm_compute. reflexivity.
    + apply (run_eq (selectChild 1 [])). vm_compute. reflexivity.
Defined.

(** X3 on the valid arguments [a] and [b]. *)
Lemma OnlyValidArgs_accepts_members_witness :
  (accepts (OnlyValidArgs ["a"; "b"]) ["b"; "a"; "b"] ↔
   Forall (λ arg, arg ∈ ["a"; "b"]) ["b"; "a"; "b"]) ∧
  call (OnlyValidArgs ["a"; "b"]) (["b"] ++ "c" :: ["d"]) =
    Err (errorString "requires valid arugmenets of a, b, received c").
Proof.
  split.
  - apply (OnlyValidArgs_accepts_members ["a"; "b"] ["b"; "a"; "b"]). discriminate.
  - destruct (OnlyValidArgs_accepts_members ["a"; "b"] (["b"] ++ "c" :: ["d"]))
      as [_ Hbad]; [discriminate|].
    apply (Hbad ["b"] "c" ["d"]); [reflexivity| |].
    + constructor; [|constructor]. apply list_elem_of_further, list_elem_of_here.
    + intros Hin. apply elem_of_cons in Hin as [Hin|Hin]; [discriminate|].
      apply elem_of_cons in Hin as [Hin|Hin]; [discriminate|].
      by apply not_elem_of_nil in Hin.
Defined.

(** X6 on "Aliased Sub". *)
Lemma positional_arguments_are_a_suffix_witness :
  [] `suffix_of` ["--"; "foobar"] ∧
  ∃ cmd1,
    cmds (bindFlags 1 []
            (setSelected 0 1 (bindFlags 0 ["--"; "foobar"] aliasedState).2).2).2
      !! 1 = Some cmd1 ∧
    Command.args cmd1 = [].
Proof.
  exact (positional_arguments_are_a_suffix 0 ["--"; "foobar"] aliasedState 1 [] _
           aliasedState_resolves).
Defined.

(** X7: the alias after the terminator selects [sub] all the same. *)
Lemma terminator_ends_flag_binding_witness :
  (∃ σ1, bindFlags 0 ["--"; "foobar"; "-x"] aliasedState
         = (Val ["foobar"; "-x"], σ1)) ∧
  ∃ σ2 cmd2,
    Parse 0 ["--"; "foobar"; "-x"] aliasedState = Parse 1 ["-x"] σ2 ∧
    cmds σ2 !! 0 = Some cmd2 ∧
    Command.selected cmd2 = Some 1 ∧
    Command.args cmd2 = ["foobar"; "-x"].
Proof.
  destruct (terminator_ends_flag_binding 0 aliasedState aliasedRoot ["foobar"; "-x"]
              eq_refl eq_refl aliasedState_allocated) as [Hb Hsel].
  split; [exact Hb|].
  apply (Hsel "foobar" ["-x"] [] 1 [] aliasedSub).
  - reflexivity.
  - reflexivity.
  - constructor.
  - reflexivity.
  - right. apply Exists_cons. left. vm_compute. reflexivity.
Defined.

(** X8: the flag after the name of the child is left to the child. *)
Lemma flag_binding_stops_at_first_positional_witness :
  (∃ σ1, bindFlags 0 ["sub"; "-x"] aliasedState = (Val ["sub"; "-x"], σ1)) ∧
  ∃ σ2 cmd2,
    Parse 0 ["sub"; "-x"] aliasedState = Parse 1 ["-x"] σ2 ∧
    cmds σ2 !! 0 = Some cmd2 ∧
    Command.selected cmd2 = Some 1 ∧
    Command.args cmd2 = ["sub"; "-x"].
Proof.
  destruct (flag_binding_stops_at_first_positional 0 aliasedState aliasedRoot
              ["sub"; "-x"] eq_refl eq_refl aliasedState_allocated) as [Hb Hsel].
  { right. exists "sub", ["-x"]. split; [reflexivity|]. right. discriminate. }
  split; [exact Hb|].
  apply (Hsel "sub" ["-x"] [] 1 [] aliasedSub).
  - reflexivity.
  - reflexivity.
  - constructor.
  - reflexivity.
  - left. vm_compute. reflexivity.
Defined.

(** X9 on "Aliased Sub": [sub] has an [Exec], and [NoArgs] accepts. *)
Lemma Parse_succeeds_iff_witness :
  (Parse 0 ["--"; "foobar"] aliasedState).1 = Val tt.
Proof.
  apply (Parse_succeeds_iff 0 ["--"; "foobar"] aliasedState 1 [] _
           (Command.with_args []
              (Command.with_UsageFunc (Some defaultUsageFunc) aliasedSub))
           aliasedState_resolves eq_refl).
  split; [by eexists|]. intros validate [= <-]. reflexivity.
Defined.

(** X11 on "Aliased Sub" after [Parse]: the chain is root, sub. *)
Lemma Run_follows_the_selections_witness :
  let σ := (Parse 0 ["foobar"] aliasedState).2 in
  ∃ t cmd,
    last [0; 1] = Some t ∧
    cmds σ !! t = Some cmd ∧
    Command.selected cmd = Some t ∧
    Run_fuel 2 0 context.Background σ = runSelf t cmd context.Background σ ∧
    ∀ exec, Command.Exec cmd = Some exec →
      Run_fuel 2 0 context.Background σ
      = handsOn t (exec context.Background (Command.args cmd)) σ.
Proof.
  cbn zeta.
  apply (Run_follows_the_selections (Parse 0 ["foobar"] aliasedState).2 0 [0; 1]
           context.Background 2); [|cbn; lia].
  apply (selChain_next _ 0
           (Command.with_selected (Some 1)
              (Command.with_args ["foobar"]
                 (Command.with_UsageFunc (Some defaultUsageFunc) aliasedRoot))) 1 [1]).
  - reflexivity.
  - reflexivity.
  - discriminate.
  - apply list_elem_of_here.
  - apply (selChain_end _ 1
             (Command.with_selected (Some 1)
                (Command.with_args []
                   (Command.with_UsageFunc (Some defaultUsageFunc) aliasedSub)))).
    + reflexivity.
    + reflexivity.
Defined.


(** X14 on "Aliased Sub": [ParseAndRun] runs the action of [sub]. *)
Lemma ParseAndRun_runs_the_terminal_witness :
  ParseAndRun_fuel 3 0 context.Background ["--"; "foobar"] aliasedState =
  (Val tt, (Parse 0 ["--"; "foobar"] aliasedState).2).
Proof.
  destruct (ParseAndRun_runs_the_terminal 0 ["--"; "foobar"] aliasedState 1 [] _
              (Command.with_args []
                 (Command.with_UsageFunc (Some defaultUsageFunc) aliasedSub))
              returnsNil context.Background 3
              aliasedState_resolves eq_refl eq_refl) as [HP HR].
  - intros validate [= <-]. reflexivity.
  - cbn. lia.
  - rewrite HR, HP. reflexivity.
Defined.

(** X15: two commands that are each other's child; [Parse] returns nil on
    [sub root], and [Run] does not return. *)
Lemma Run_never_returns_on_a_selection_loop_witness :
  let σ := (Parse 0 ["sub"; "root"] loopState).2 in
  (Parse 0 ["sub"; "root"] loopState).1 = Val tt ∧
  ∀ fuel, Run_fuel fuel 0 context.Background σ = (Timeout, σ).
Proof.
  cbn zeta. split; [vm_compute; reflexivity|]. intros fuel.
  apply (Run_never_returns_on_a_selection_loop (λ p, p = 0 ∨ p = 1)); [|by left].
  intros p [->| ->].
  - exists (Command.with_selected (Some 1)
              (Command.with_args ["sub"; "root"]
                 (Command.with_UsageFunc (Some defaultUsageFunc) loopRoot))), 1.
    split; [reflexivity|]. split; [reflexivity|]. split; [discriminate|by right].
  - exists (Command.with_selected (Some 0)
              (Command.with_args ["root"]
                 (Command.with_UsageFunc (Some defaultUsageFunc) loopSub))), 0.
    split; [reflexivity|]. split; [reflexivity|]. split; [discriminate|by left].
Defined.

(** X16: "Root" parsed once; other arguments change nothing. *)
Lemma ParseAndRun_on_a_parsed_node_ignores_the_arguments_witness :
  let σ := (Parse 0 [] rootState).2 in
  ParseAndRun_fuel 1 0 context.Background ["-h"; "x"] σ
  = Run_fuel 1 0 context.Background σ ∧
  ∀ argv', ParseAndRun_fuel 1 0 context.Background argv' σ
           = ParseAndRun_fuel 1 0 context.Background ["-h"; "x"] σ.
Proof.
  cbn zeta.
  apply (ParseAndRun_on_a_parsed_node_ignores_the_arguments 0 context.Background
           ["-h"; "x"] (Parse 0 [] rootState).2
           (Command.with_selected (Some 0)
              (Command.with_args []
                 (Command.with_UsageFunc (Some defaultUsageFunc) rootCmd))) 0 1);
    reflexivity.
Defined.

Lemma rootState_validatorsReturn : validatorsReturn rootState.
Proof.
  intros p cmd validate args Hp Hv. unfold rootState in Hp. cbn [cmds] in Hp.
  apply lookup_singleton_Some in Hp as [<- <-]. injection Hv as <-.
  unfold NoArgs. by case_match.
Defined.

(** X17 on "Root". *)
Lemma Parse_comes_to_an_end_witness :
  (Parse 0 ["x"; "y"] rootState).1 ≠ Timeout ∧
  ∀ fuel, (length ["x"; "y"] < fuel)%nat →
    Parse_fuel fuel 0 ["x"; "y"] rootState = Parse 0 ["x"; "y"] rootState.
Proof.
  exact (Parse_comes_to_an_end 0 ["x"; "y"] rootState rootState_validatorsReturn).
Defined.
